(** * build_calendar.py: a shallow embedding and its verified properties

    The script fetches the calendar feed of every configured basketball team,
    namespaces the UID of every event, annotates its SUMMARY, merges the events
    of all feeds and removes exact duplicates.

    Python strings are sequences of Unicode code points: they are modelled as
    lists of code points ([list N]).  The network ([requests.get]), the HTML
    option scan ([OPT_RE.findall]) and the builtin [hash] are the environment:
    they are parameters of the functions that use them. *)

From Stdlib Require Import NArith ZArith String Ascii Lia DecimalString.
From stdpp Require Import base numbers option list.

Set Default Proof Using "Type".
Open Scope N_scope.

(** ** Strings *)

Definition str := list N.

Definition ch (a : ascii) : N := N_of_ascii a.
Arguments ch a%_char.

Definition LF : N := 10.
Definition CR : N := 13.

Definition hexval (a : ascii) : option N :=
  let n := N_of_ascii a in
  if (48 <=? n) && (n <=? 57) then Some (n - 48)
  else if (97 <=? n) && (n <=? 102) then Some (n - 87)
  else if (65 <=? n) && (n <=? 70) then Some (n - 55)
  else None.

(** [py "..."] reads the body of a Python string literal: the escapes
    [\r], [\n], [\t], [\\] and [\xHH] denote what they denote in Python, any
    other character denotes its own code point. *)
Fixpoint py (s : string) : str :=
  match s with
  | EmptyString => []
  | String "\" (String "r" s') => CR :: py s'
  | String "\" (String "n" s') => LF :: py s'
  | String "\" (String "t" s') => 9 :: py s'
  | String "\" (String "\" s') => 92 :: py s'
  | String "\" (String "x" (String h (String l s'))) =>
      match hexval h, hexval l with
      | Some a, Some b => (16 * a + b) :: py s'
      | _, _ => 92 :: 120 :: N_of_ascii h :: N_of_ascii l :: py s'
      end
  | String a s' => N_of_ascii a :: py s'
  end.
Arguments py s%_string.

(** [a == b] on strings. *)
Fixpoint str_eqb (a b : str) : bool :=
  match a, b with
  | [], [] => true
  | x :: a', y :: b' => (x =? y) && str_eqb a' b'
  | _, _ => false
  end.

(** [s.startswith(p)] *)
Fixpoint startswith (p s : str) : bool :=
  match p, s with
  | [], _ => true
  | _ :: _, [] => false
  | a :: p', b :: s' => (a =? b) && startswith p' s'
  end.

(** [needle in hay]: the substring test. *)
Fixpoint str_in (needle hay : str) : bool :=
  startswith needle hay ||
  match hay with
  | [] => false
  | _ :: hay' => str_in needle hay'
  end.

(** [s.replace(old, new)] for a non-empty [old]: the occurrences of [old] are
    found from left to right and do not overlap.  [skip] counts the characters
    of an occurrence that was already replaced and is still to be passed. *)
Fixpoint replace_from (old new : str) (skip : nat) (s : str) : str :=
  match s with
  | [] => []
  | c :: s' =>
      match skip with
      | S k => replace_from old new k s'
      | O =>
          if startswith old s
          then new ++ replace_from old new (length old - 1) s'
          else c :: replace_from old new 0 s'
      end
  end.

Definition replace (old new s : str) : str := replace_from old new 0 s.

(** [sep.join(parts)] *)
Fixpoint join (sep : str) (parts : list str) : str :=
  match parts with
  | [] => []
  | p :: rest =>
      match rest with
      | [] => p
      | _ :: _ => p ++ sep ++ join sep rest
      end
  end.

(** [s.split("\r\n")]: [cur] is the piece being read. *)
Fixpoint split_crlf_from (cur s : str) : list str :=
  match s with
  | [] => [cur]
  | c :: s' =>
      match s' with
      | d :: s'' =>
          if (c =? CR) && (d =? LF)
          then cur :: split_crlf_from [] s''
          else split_crlf_from (cur ++ [c]) s'
      | [] => [cur ++ [c]]
      end
  end.

Definition split_crlf (s : str) : list str := split_crlf_from [] s.

(** [str(n)] for an integer [n >= 0]: its decimal digits. *)
Definition str_of_N (n : N) : str :=
  map N_of_ascii (list_ascii_of_string (NilEmpty.string_of_uint (N.to_uint n))).

(** ** Outcomes: a value, or one of the exceptions the script can end with. *)

Inductive result (A : Type) : Type :=
| Ok (a : A)
| RuntimeError (msg : str)
| HTTPError.
Arguments Ok {A} a.
Arguments RuntimeError {A} msg.
Arguments HTTPError {A}.

(** ** The substitutions [re.sub(r"^TAG(.+)\r\n", repl, text, flags=re.MULTILINE)]

    [.] matches every character but LF and [^] matches at the start of the
    text and directly after every LF. *)

(** The longest run the greedy [.+] can take. *)
Fixpoint dot_run (s : str) : nat :=
  match s with
  | [] => O
  | c :: s' => if c =? LF then O else S (dot_run s')
  end.

(** [.+] gives characters back one at a time until [\r\n] follows: [k] is the
    number of characters it still holds.  The result is group 1. *)
Fixpoint dot_plus_crlf (k : nat) (s : str) : option str :=
  match k with
  | O => None
  | S k' =>
      if startswith [CR; LF] (drop k s) then Some (take k s)
      else dot_plus_crlf k' s
  end.

(** The pattern [TAG(.+)\r\n] tried at the head of [s]. *)
Definition match_field (tag s : str) : option str :=
  if startswith tag s
  then dot_plus_crlf (dot_run (drop (length tag) s)) (drop (length tag) s)
  else None.

(** The scan of [re.sub]: at every position where the pattern matches, the
    replacement [repl group1] is written and the scan goes on after the match;
    elsewhere the character is copied.  [bol] says that the position is at the
    start of a line, [skip] counts the characters of a match still to pass. *)
Fixpoint sub_field_from (tag : str) (repl : str → str) (bol : bool) (skip : nat) (s : str) : str :=
  match s with
  | [] => []
  | c :: s' =>
      match skip with
      | S k => sub_field_from tag repl (c =? LF) k s'
      | O =>
          match (if bol then match_field tag s else None) with
          | Some g => repl g ++ sub_field_from tag repl (c =? LF) (length tag + length g + 1) s'
          | None => c :: sub_field_from tag repl (c =? LF) 0 s'
          end
      end
  end.

Definition sub_field (tag : str) (repl : str → str) (text : str) : str :=
  sub_field_from tag repl true 0 text.

(** ** Event extractor: [VEVENT_RE.findall]

    [BEGIN:VEVENT\r?\n.*?\r?\nEND:VEVENT\r?\n] with [re.DOTALL]. *)

(** [\r?\n] at the head of [s]: what follows it. *)
Definition opt_cr_lf (s : str) : option str :=
  match s with
  | c :: s' =>
      if c =? CR then
        match s' with
        | d :: s'' => if d =? LF then Some s'' else None
        | [] => None
        end
      else if c =? LF then Some s'
      else None
  | [] => None
  end.

Definition literal (lit s : str) : option str :=
  if startswith lit s then Some (drop (length lit) s) else None.

Definition begin_vevent (s : str) : option str :=
  match literal (py "BEGIN:VEVENT") s with
  | Some r => opt_cr_lf r
  | None => None
  end.

Definition end_vevent (s : str) : option str :=
  match opt_cr_lf s with
  | Some r =>
      match literal (py "END:VEVENT") r with
      | Some r' => opt_cr_lf r'
      | None => None
      end
  | None => None
  end.

(** The lazy [.*?] followed by the end marker: the number of characters of the
    shortest body together with the marker. *)
Fixpoint lazy_body (s : str) : option nat :=
  match end_vevent s with
  | Some rest => Some (length s - length rest)%nat
  | None =>
      match s with
      | [] => None
      | _ :: s' => S <$> lazy_body s'
      end
  end.

(** The length of the match of the whole pattern at the head of [s]. *)
Definition match_vevent (s : str) : option nat :=
  match begin_vevent s with
  | Some r =>
      match lazy_body r with
      | Some n => Some (length s - length r + n)%nat
      | None => None
      end
  | None => None
  end.

Fixpoint findall_vevent (skip : nat) (s : str) : list str :=
  match s with
  | [] => []
  | _ :: s' =>
      match skip with
      | S k => findall_vevent k s'
      | O =>
          match match_vevent s with
          | Some n => take n s :: findall_vevent (n - 1) s'
          | None => findall_vevent 0 s'
          end
      end
  end.

Definition extract_events (ics_text : str) : list str := findall_vevent 0 ics_text.

(** ** Merge and dedupe: [list(dict.fromkeys(merged))]

    A dict keeps its keys in insertion order; setting a key that is present
    leaves the key where it is. *)

Definition dict (K V : Type) : Type := list (K * V).

Fixpoint dict_set {K V : Type} `{EqDecision K} (k : K) (v : V) (d : dict K V) : dict K V :=
  match d with
  | [] => [(k, v)]
  | (k', v') :: d' =>
      if decide (k = k') then (k', v) :: d' else (k', v') :: dict_set k v d'
  end.

Definition dict_fromkeys {K : Type} `{EqDecision K} (keys : list K) : dict K unit :=
  fold_left (λ d k, dict_set k () d) keys [].

Definition dict_keys {K V : Type} (d : dict K V) : list K := map fst d.

Definition dedupe (merged : list str) : list str := dict_keys (dict_fromkeys merged).

(** ** The Python library functions [norm] relies on *)

Record unicode : Type := {
  unescape : str → str;      (* html.unescape *)
  isspace : N → bool;        (* str.isspace, the class \s of re *)
  nfkd : str → str;          (* unicodedata.normalize("NFKD", s) *)
  combining : N → N;         (* unicodedata.combining *)
  casefold : str → str       (* str.casefold *)
}.

(** A candidate of the resolver: [(label_clean, val, original)]. *)
Abbreviation candidate := (str * str * str)%type.

Section Model.

Variable U : unicode.
(** The builtin [hash] on strings, fixed for the run of the process. *)
Variable hash : str → Z.
(** [OPT_RE.findall(block)] on the schedule page of a league: the (value,
    label) pairs of its options; [None] when the request fails. *)
Variable http_options : str → option (list (str * str)).
(** The text of the calendar response for a league and a team. *)
Variable http_ics : str → str → option str.

(** [re.sub(r"\s+", " ", s)]: [in_run] says that the position is inside a run
    of whitespace whose replacement was already written. *)
Fixpoint sub_ws (in_run : bool) (s : str) : str :=
  match s with
  | [] => []
  | c :: s' =>
      if isspace U c
      then (if in_run then sub_ws true s' else ch " " :: sub_ws true s')
      else c :: sub_ws false s'
  end.

Fixpoint lstrip (s : str) : str :=
  match s with
  | [] => []
  | c :: s' => if isspace U c then lstrip s' else s
  end.

Definition rstrip (s : str) : str := reverse (lstrip (reverse s)).

(** [s.strip()] *)
Definition strip (s : str) : str := rstrip (lstrip s).

Definition norm (s : str) : str :=
  let s := unescape U s in
  let s := strip (sub_ws false s) in
  let s := nfkd U s in
  let s := List.filter (λ c, combining U c =? 0) s in
  casefold U s.

(** [re.sub(r"<.*?>", "", label)]: the lazy [.*?] stops at the first [>]
    and cannot pass a LF. *)
Fixpoint tag_end (s : str) : option nat :=
  match s with
  | [] => None
  | c :: s' =>
      if c =? ch ">" then Some 1%nat
      else if c =? LF then None
      else S <$> tag_end s'
  end.

Fixpoint strip_tags_from (skip : nat) (s : str) : str :=
  match s with
  | [] => []
  | c :: s' =>
      match skip with
      | S k => strip_tags_from k s'
      | O =>
          if c =? ch "<" then
            match tag_end s' with
            | Some n => strip_tags_from n s'
            | None => c :: strip_tags_from 0 s'
            end
          else c :: strip_tags_from 0 s'
      end
  end.

Definition strip_tags (label : str) : str := strip_tags_from 0 label.

(** *** Identifier resolver: [fetch_team_id] *)


(** The loop that builds [candidates] from the options. *)
Definition candidates_of (opts : list (str * str)) : list candidate :=
  fold_left
    (λ candidates '(val, label),
       let label_clean := norm (strip_tags label) in
       if str_eqb (strip val) (py "-1") || str_eqb (strip val) (py "")
       then candidates
       else candidates ++ [(label_clean, strip val, strip (strip_tags label))])
    opts [].

(** First loop: [if label_clean == wanted: return val]. *)
Fixpoint exact_pass (wanted : str) (candidates : list candidate) : option str :=
  match candidates with
  | [] => None
  | (label_clean, val, _) :: rest =>
      if str_eqb label_clean wanted then Some val else exact_pass wanted rest
  end.

(** Second loop: [if wanted in label_clean or label_clean in wanted: return val]. *)
Fixpoint contains_pass (wanted : str) (candidates : list candidate) : option str :=
  match candidates with
  | [] => None
  | (label_clean, val, _) :: rest =>
      if str_in wanted label_clean || str_in label_clean wanted then Some val
      else contains_pass wanted rest
  end.

Definition not_found_message (team_name liga_id : str) (candidates : list candidate) : str :=
  let sample := join (py ", ") (map (λ c : candidate, c.2) (take 10 candidates)) in
  py "Team '" ++ team_name ++ py "' nicht im Dropdown gefunden (liga_id=" ++ liga_id ++ py "). "
    ++ py "Beispieloptionen: " ++ sample.

(** The resolver on the options found in the page. *)
Definition resolve (team_name liga_id : str) (opts : list (str * str)) : result str :=
  let wanted := norm team_name in
  let candidates := candidates_of opts in
  match exact_pass wanted candidates with
  | Some val => Ok val
  | None =>
      match contains_pass wanted candidates with
      | Some val => Ok val
      | None => RuntimeError (not_found_message team_name liga_id candidates)
      end
  end.

Definition fetch_team_id (team_name liga_id : str) : result str :=
  match http_options liga_id with
  | None => HTTPError
  | Some opts => resolve team_name liga_id opts
  end.

(** *** Feed fetcher: [fetch_ics] *)

Definition normalize_crlf (text : str) : str :=
  replace (py "\n") (py "\r\n")
    (replace (py "\r") (py "\n")
       (replace (py "\r\n") (py "\n") text)).

Definition fetch_ics (liga_id ms_liga_id : str) : result str :=
  match http_ics liga_id ms_liga_id with
  | None => HTTPError
  | Some text => Ok (normalize_crlf text)
  end.

(** *** Event transformer: [prefix_uid] and the SUMMARY rewrite of [main] *)

(** The loop over the lines: its state is [(out, inserted)]. *)
Definition insert_uid_step (uid : str) (st : list str * bool) (line : str) : list str * bool :=
  let '(out, inserted) := st in
  let out := out ++ [line] in
  if negb inserted && startswith (py "DTSTART") line
  then (out ++ [py "UID:" ++ uid], true)
  else (out, inserted).

Definition synthesized_uid (event_text prefix : str) : str :=
  prefix ++ py "-" ++ str_of_N (Z.to_N (Z.abs (hash event_text))) ++ py "@basketball-bund.net".

(** [lambda m: f"UID:{prefix}-{m.group(1)}\r\n"], on group 1. *)
Definition uid_repl (prefix g : str) : str :=
  py "UID:" ++ prefix ++ py "-" ++ g ++ py "\r\n".

Definition prefix_uid (event_text prefix : str) : str :=
  if str_in (py "UID:") event_text then
    sub_field (py "UID:") (uid_repl prefix) event_text
  else
    let uid := synthesized_uid event_text prefix in
    let lines := split_crlf event_text in
    let out := (fold_left (insert_uid_step uid) lines ([], false)).1 in
    join (py "\r\n") out.

(** [lambda m: f"SUMMARY:{m.group(1)} [{team_name}]\r\n"], on group 1. *)
Definition summary_repl (team_name g : str) : str :=
  py "SUMMARY:" ++ g ++ py " [" ++ team_name ++ py "]\r\n".

Definition annotate_summary (team_name ev2 : str) : str :=
  sub_field (py "SUMMARY:") (summary_repl team_name) ev2.

(** The body of the inner loop of [main]. *)
Definition transform (prefix team_name ev : str) : str :=
  annotate_summary team_name (prefix_uid ev prefix).

(** *** [main]: the merged list of events *)

Definition no_events_message (team_name liga_id ms_id : str) : str :=
  py "Keine VEVENTs gefunden f\xfcr " ++ team_name ++ py " (liga_id=" ++ liga_id
    ++ py ", ms_liga_id=" ++ ms_id ++ py ")".

Definition uid_prefix (liga_id ms_id : str) : str :=
  py "liga" ++ liga_id ++ py "-team" ++ ms_id.

Fixpoint main_loop (targets : list (str * str)) (merged : list str) : result (list str) :=
  match targets with
  | [] => Ok merged
  | (team_name, liga_id) :: rest =>
      match fetch_team_id team_name liga_id with
      | Ok ms_id =>
          match fetch_ics liga_id ms_id with
          | Ok ics =>
              match extract_events ics with
              | [] => RuntimeError (no_events_message team_name liga_id ms_id)
              | events =>
                  let prefix := uid_prefix liga_id ms_id in
                  main_loop rest
                    (fold_left (λ merged ev, merged ++ [transform prefix team_name ev]) events merged)
              end
          | RuntimeError msg => RuntimeError msg
          | HTTPError => HTTPError
          end
      | RuntimeError msg => RuntimeError msg
      | HTTPError => HTTPError
      end
  end.

(** The value of [merged] after the dedupe, for the configured targets. *)
Definition main_merged (targets : list (str * str)) : result (list str) :=
  match main_loop targets [] with
  | Ok merged => Ok (dedupe merged)
  | RuntimeError msg => RuntimeError msg
  | HTTPError => HTTPError
  end.

End Model.

Definition TARGETS : list (str * str) :=
  [ (py "TSV Gromb\xfchl 2", py "51127");
    (py "TSV Gromb\xfchl", py "52205");
    (py "TSV Gromb\xfchl AK", py "51052");
    (py "TG Veitsh\xf6chheim", py "49758") ].

(** ** Calendar assembler: [ensure_calendar_header] and the end of [main] *)

Definition ensure_calendar_header : str :=
  py "BEGIN:VCALENDAR\r\n"
  ++ py "VERSION:2.0\r\n"
  ++ py "PRODID:-//David//BB Kalender Merge//DE\r\n"
  ++ py "CALSCALE:GREGORIAN\r\n"
  ++ py "METHOD:PUBLISH\r\n"
  ++ py "X-WR-CALNAME:Basketball Spiele\r\n"
  ++ py "X-WR-TIMEZONE:Europe/Berlin\r\n"
  ++ py "X-PUBLISHED-TTL:PT168H\r\n".

(** The text [out] that [main] writes to calendar.ics; [now] is the time
    stamp [datetime.now(timezone.utc).strftime("%Y%m%dT%H%M%SZ")]. *)
Definition calendar_text (now : str) (merged : list str) : str :=
  ensure_calendar_header
  ++ (py "X-WR-CALDESC:Automatisch generiert. Letztes Update: " ++ now ++ py "\r\n")
  ++ concat merged
  ++ py "END:VCALENDAR\r\n".

(** One round of the loop of [main]: the records it appends for a target, or
    the exception it ends with. *)
Definition target_events (U : unicode) (hash : str → Z)
    (http_options : str → option (list (str * str))) (http_ics : str → str → option str)
    (t : str * str) : result (list str) :=
  let '(team_name, liga_id) := t in
  match fetch_team_id U http_options team_name liga_id with
  | Ok ms_id =>
      match fetch_ics http_ics liga_id ms_id with
      | Ok ics =>
          match extract_events ics with
          | [] => RuntimeError (no_events_message team_name liga_id ms_id)
          | events => Ok (map (transform hash (uid_prefix liga_id ms_id) team_name) events)
          end
      | RuntimeError msg => RuntimeError msg
      | HTTPError => HTTPError
      end
  | RuntimeError msg => RuntimeError msg
  | HTTPError => HTTPError
  end.

(** [main]: the text written to the file and the line printed, or the
    exception. *)
Definition main (U : unicode) (hash : str → Z)
    (http_options : str → option (list (str * str))) (http_ics : str → str → option str)
    (now : str) (targets : list (str * str)) : result (str * str) :=
  match main_merged U hash http_options http_ics targets with
  | Ok merged =>
      Ok (calendar_text now merged,
          py "OK: " ++ str_of_N (N.of_nat (length merged)) ++ py " Events -> calendar.ics")
  | RuntimeError msg => RuntimeError msg
  | HTTPError => HTTPError
  end.

(** ** Notions used in the statements *)

(** Every line feed directly follows a carriage return and every carriage
    return is directly followed by a line feed. *)
Definition breaks_are_crlf (s : str) : Prop :=
  ∀ i : nat,
    (s !! i = Some LF → ∃ j : nat, i = S j ∧ s !! j = Some CR) ∧
    (s !! i = Some CR → s !! S i = Some LF).

(** Texts made of characters other than CR and LF and of CR LF pairs. *)
Inductive crlf_text : str → Prop :=
| crlf_nil : crlf_text []
| crlf_char c s : c ≠ CR → c ≠ LF → crlf_text s → crlf_text (c :: s)
| crlf_break s : crlf_text s → crlf_text (CR :: LF :: s).

(** The characters that are no line terminator. *)
Definition content (s : str) : str :=
  List.filter (λ c, negb (c =? CR) && negb (c =? LF)) s.

(** [needle] occurs in [hay]. *)
Definition substring (needle hay : str) : Prop :=
  ∃ pre post, hay = pre ++ needle ++ post.

(** The two tests of the resolver on a candidate. *)
Definition exact_match (wanted : str) (c : candidate) : Prop := c.1.1 = wanted.

Definition contains_match (wanted : str) (c : candidate) : Prop :=
  substring wanted c.1.1 ∨ substring c.1.1 wanted.

(** The options the resolver keeps and the candidate it makes of an option. *)
Definition kept_option (U : unicode) (o : str * str) : bool :=
  negb (str_eqb (strip U o.1) (py "-1") || str_eqb (strip U o.1) (py "")).

Definition candidate_of (U : unicode) (o : str * str) : candidate :=
  (norm U (strip_tags o.2), strip U o.1, strip U (strip_tags o.2)).

(** The lines of a text: every line ends with its LF, the last one may lack
    it.  Their concatenation is the text. *)
Fixpoint lines (s : str) : list str :=
  match s with
  | [] => []
  | c :: s' =>
      if c =? LF then [c] :: lines s'
      else
        match lines s' with
        | [] => [[c]]
        | l :: ls => (c :: l) :: ls
        end
  end.

(** A line that ends with its LF. *)
Definition full_line (l : str) : Prop := ∃ body, l = body ++ [LF] ∧ LF ∉ body.

(** A field line: the tag at the start of the line, at least one character
    and CR LF. *)
Definition field_line (tag line : str) : Prop :=
  ∃ g, g ≠ [] ∧ line = tag ++ g ++ py "\r\n".

(** A line after the substitution: the replacement when the pattern matches
    the line, the line itself otherwise. *)
Definition rewrite_line (tag : str) (repl : str → str) (line : str) : str :=
  match match_field tag line with
  | Some g => repl g
  | None => line
  end.

(** The substitution that the specification words describe: only the first
    line that matches is rewritten. *)
Fixpoint rewrite_first_line (tag : str) (repl : str → str) (ls : list str) : list str :=
  match ls with
  | [] => []
  | l :: ls' =>
      match match_field tag l with
      | Some g => repl g :: ls'
      | None => l :: rewrite_first_line tag repl ls'
      end
  end.

(** The last three steps of [norm]: NFKD, removal of the combining marks and
    case folding. *)
Definition nfkd_fold (U : unicode) (w : str) : str :=
  casefold U (List.filter (λ c, combining U c =? 0) (nfkd U w)).

(** What they make of one character. *)
Definition char_image (U : unicode) (c : N) : str := nfkd_fold U [c].

(** What the idempotence of [norm] asks of the library: the space is
    whitespace and is its own image, and the last three steps work character
    by character (the canonical reordering of NFKD moves combining marks only,
    which are removed). *)
Record library_laws (U : unicode) : Prop := {
  space_isspace : isspace U (ch " ") = true;
  space_image : char_image U (ch " ") = [ch " "];
  fold_charwise : ∀ w, nfkd_fold U w = flat_map (char_image U) w
}.

(** A character that the last three steps treat stably: its image is not
    empty, the characters of the image are whitespace exactly when the
    character is, and each of them is its own image. *)
Definition stable_char (U : unicode) (c : N) : Prop :=
  char_image U c ≠ []
  ∧ ∀ c', c' ∈ char_image U c → isspace U c' = isspace U c ∧ char_image U c' = [c'].

(** The claim that the prefix rewrites the line [UID:12345] of a record and
    no other line, whatever the other lines are.  [before] ends at a start of
    line. *)
Definition only_uid_line_rewritten : Prop :=
  ∀ (hash : str → Z) (before after : str),
    before = [] ∨ (∃ b, before = b ++ [LF]) →
    prefix_uid hash (before ++ py "UID:12345\r\n" ++ after) (py "liga51127-team425276")
    = before ++ py "UID:liga51127-team425276-12345\r\n" ++ after.

(** The claim that a record none of whose lines is a UID field (no line
    starts with [UID:]) gets a UID line after its first DTSTART line. *)
Definition uid_inserted_without_uid_field : Prop :=
  ∀ (hash : str → Z) (ev prefix : str) (l1 l2 : list str) (d : str),
    split_crlf ev = l1 ++ d :: l2 →
    Forall (λ l, startswith (py "UID:") l = false) (l1 ++ d :: l2) →
    Forall (λ l, startswith (py "DTSTART") l = false) l1 →
    startswith (py "DTSTART") d = true →
    prefix_uid hash ev prefix
    = join (py "\r\n") (l1 ++ d :: (py "UID:" ++ synthesized_uid hash ev prefix) :: l2).

(** The claim that each substitution rewrites the first matching line only. *)
Definition first_line_only : Prop :=
  ∀ (hash : str → Z) (ev prefix team_name : str),
    (str_in (py "UID:") ev = true →
     prefix_uid hash ev prefix
     = concat (rewrite_first_line (py "UID:") (uid_repl prefix) (lines ev)))
    ∧ annotate_summary team_name ev
      = concat (rewrite_first_line (py "SUMMARY:") (summary_repl team_name) (lines ev)).

(** The values of the UID field lines of a record. *)
Definition uid_values (ev : str) : list str :=
  omap (match_field (py "UID:")) (lines ev).

(** Every record has a UID and the records at two different places have no
    UID value in common. *)
Definition uids_unique (out : list str) : Prop :=
  (∀ e, e ∈ out → uid_values e ≠ [])
  ∧ (∀ (i j : nat) e1 e2 u1 u2,
       i ≠ j → out !! i = Some e1 → out !! j = Some e2 →
       u1 ∈ uid_values e1 → u2 ∈ uid_values e2 → u1 ≠ u2).

(** The claim that the output of every run has unique UIDs. *)
Definition output_uids_unique : Prop :=
  ∀ U hash http_options http_ics targets out,
    main_merged U hash http_options http_ics targets = Ok out → uids_unique out.

(** What one round of the loop of [main] appends for the target [t]. *)
Definition feed_events (U : unicode) (hash : str → Z)
    (http_options : str → option (list (str * str))) (http_ics : str → str → option str)
    (t : str * str) (part : list str) : Prop :=
  ∃ ms ics,
    fetch_team_id U http_options t.1 t.2 = Ok ms
    ∧ fetch_ics http_ics t.2 ms = Ok ics
    ∧ part = map (transform hash (uid_prefix t.2 ms) t.1) (extract_events ics).

(** The events of a feed: each has one UID field line, and two events with
    the same UID are the same text. *)
Definition well_formed_feed (events : list str) : Prop :=
  (∀ ev, ev ∈ events → ∃ u, uid_values ev = [u])
  ∧ (∀ ev ev', ev ∈ events → ev' ∈ events → uid_values ev = uid_values ev' → ev = ev').

(** A small run, used to instantiate the statements about [main]: two
    leagues whose pages list the same two teams and whose feeds hold the same
    two events. *)
Definition demo_targets : list (str * str) := [(py "A", py "1"); (py "B", py "2")].

Definition demo_options (liga_id : str) : option (list (str * str)) :=
  Some [(py "-1", py "- alle Mannschaften -"); (py "7", py "A"); (py "8", py "B")].

Definition demo_ics (liga_id ms_liga_id : str) : option str :=
  Some (py "BEGIN:VCALENDAR\nBEGIN:VEVENT\nUID:1\nSUMMARY:x\nEND:VEVENT\nBEGIN:VEVENT\nUID:2\nSUMMARY:y\nEND:VEVENT\nEND:VCALENDAR\n").

Definition demo_output : list str :=
  [ py "BEGIN:VEVENT\r\nUID:liga1-team7-1\r\nSUMMARY:x [A]\r\nEND:VEVENT\r\n";
    py "BEGIN:VEVENT\r\nUID:liga1-team7-2\r\nSUMMARY:y [A]\r\nEND:VEVENT\r\n";
    py "BEGIN:VEVENT\r\nUID:liga2-team8-1\r\nSUMMARY:x [B]\r\nEND:VEVENT\r\n";
    py "BEGIN:VEVENT\r\nUID:liga2-team8-2\r\nSUMMARY:y [B]\r\nEND:VEVENT\r\n" ].

(** A feed in which two different events carry the same UID, and the
    output of the run on it. *)
Definition clash_ics (liga_id ms_liga_id : str) : option str :=
  Some (py "BEGIN:VCALENDAR\nBEGIN:VEVENT\nUID:1\nSUMMARY:x\nEND:VEVENT\nBEGIN:VEVENT\nUID:1\nSUMMARY:y\nEND:VEVENT\nBEGIN:VEVENT\nSUMMARY:z\nEND:VEVENT\nEND:VCALENDAR\n").

Definition clash_output : list str :=
  [ py "BEGIN:VEVENT\r\nUID:liga1-team7-1\r\nSUMMARY:x [A]\r\nEND:VEVENT\r\n";
    py "BEGIN:VEVENT\r\nUID:liga1-team7-1\r\nSUMMARY:y [A]\r\nEND:VEVENT\r\n";
    py "BEGIN:VEVENT\r\nSUMMARY:z [A]\r\nEND:VEVENT\r\n" ].

(** ** The Python library, for code points below 256

    Modelled from the spec: [html.unescape], [str.isspace], [unicodedata] and
    [str.casefold] belong to the Python library; their code and tables are not
    part of src/.  The models follow CPython 3.11 (Lib/html/__init__.py) and
    the Unicode 14 character database.  [html.entities.html5] lists 2231
    names; the model keeps [apos;] and the 106 names that are also valid
    without their semicolon.  The decomposition, combining-class and
    case-folding tables cover the code points below 256 and the code points
    that [norm] produces from them. *)

Module PyLib.

Definition invalid_charrefs (num : N) : option str :=
  match num with
  | 0x00 => Some [0xfffd] | 0x0d => Some [0x0d] | 0x80 => Some [0x20ac]
  | 0x81 => Some [0x81] | 0x82 => Some [0x201a] | 0x83 => Some [0x0192]
  | 0x84 => Some [0x201e] | 0x85 => Some [0x2026] | 0x86 => Some [0x2020]
  | 0x87 => Some [0x2021] | 0x88 => Some [0x02c6] | 0x89 => Some [0x2030]
  | 0x8a => Some [0x0160] | 0x8b => Some [0x2039] | 0x8c => Some [0x0152]
  | 0x8d => Some [0x8d] | 0x8e => Some [0x017d] | 0x8f => Some [0x8f]
  | 0x90 => Some [0x90] | 0x91 => Some [0x2018] | 0x92 => Some [0x2019]
  | 0x93 => Some [0x201c] | 0x94 => Some [0x201d] | 0x95 => Some [0x2022]
  | 0x96 => Some [0x2013] | 0x97 => Some [0x2014] | 0x98 => Some [0x02dc]
  | 0x99 => Some [0x2122] | 0x9a => Some [0x0161] | 0x9b => Some [0x203a]
  | 0x9c => Some [0x0153] | 0x9d => Some [0x9d] | 0x9e => Some [0x017e]
  | 0x9f => Some [0x0178]
  | _ => None
  end.

Definition invalid_codepoints (num : N) : bool :=
  ((0x1 <=? num) && (num <=? 0x8)) || ((0xe <=? num) && (num <=? 0x1f))
  || ((0x7f <=? num) && (num <=? 0x9f)) || ((0xfdd0 <=? num) && (num <=? 0xfdef))
  || (num =? 0xb)
  || ((0xfffe <=? num) && (num <=? 0x10ffff) && (0xfffe <=? N.land num 0xffff)).

Definition is_digit (c : N) : bool := (ch "0" <=? c) && (c <=? ch "9").

Definition is_hex (c : N) : bool :=
  is_digit c || ((ch "a" <=? c) && (c <=? ch "f")) || ((ch "A" <=? c) && (c <=? ch "F")).

(** The class [[^\t\n\f <&#;]]. *)
Definition is_name_char (c : N) : bool :=
  negb ((c =? 9) || (c =? 10) || (c =? 12) || (c =? ch " ") || (c =? ch "<")
        || (c =? ch "&") || (c =? ch "#") || (c =? ch ";")).

Definition digit_val (c : N) : N :=
  if is_digit c then c - ch "0"
  else if ch "a" <=? c then c - ch "a" + 10
  else c - ch "A" + 10.

(** [int(digits, base)] *)
Definition int_of (base : N) (digits : str) : N :=
  fold_left (λ n d, base * n + digit_val d) digits 0.

Fixpoint run (p : N → bool) (s : str) : nat :=
  match s with
  | [] => O
  | c :: s' => if p c then S (run p s') else O
  end.

(** The optional [;] after [n] characters. *)
Definition with_semicolon (n : nat) (s : str) : nat :=
  if startswith (py ";") (drop n s) then S n else n.

(** The three alternatives of [_charref] after the [&]: group 1. *)
Definition match_charref (s : str) : option str :=
  let decimal :=
    match s with
    | c :: r =>
        if (c =? ch "#") && bool_decide (run is_digit r ≠ O)
        then Some (take (S (with_semicolon (run is_digit r) r)) s)
        else None
    | [] => None
    end in
  let hexadecimal :=
    match s with
    | c :: x :: r =>
        if (c =? ch "#") && ((x =? ch "x") || (x =? ch "X")) && bool_decide (run is_hex r ≠ O)
        then Some (take (S (S (with_semicolon (run is_hex r) r))) s)
        else None
    | _ => None
    end in
  let named :=
    let n := (run is_name_char s `min` 32)%nat in
    if bool_decide (n ≠ O) then Some (take (with_semicolon n s) s) else None in
  match decimal with
  | Some g => Some g
  | None =>
      match hexadecimal with
      | Some g => Some g
      | None => named
      end
  end.

Local Open Scope string_scope.
Definition legacy_names : list (string * N) :=
  [ ("AElig", 198); ("AMP", 38); ("Aacute", 193); ("Acirc", 194); ("Agrave", 192);
    ("Aring", 197); ("Atilde", 195); ("Auml", 196); ("COPY", 169); ("Ccedil", 199);
    ("ETH", 208); ("Eacute", 201); ("Ecirc", 202); ("Egrave", 200); ("Euml", 203);
    ("GT", 62); ("Iacute", 205); ("Icirc", 206); ("Igrave", 204); ("Iuml", 207);
    ("LT", 60); ("Ntilde", 209); ("Oacute", 211); ("Ocirc", 212); ("Ograve", 210);
    ("Oslash", 216); ("Otilde", 213); ("Ouml", 214); ("QUOT", 34); ("REG", 174);
    ("THORN", 222); ("Uacute", 218); ("Ucirc", 219); ("Ugrave", 217); ("Uuml", 220);
    ("Yacute", 221); ("aacute", 225); ("acirc", 226); ("acute", 180); ("aelig", 230);
    ("agrave", 224); ("amp", 38); ("aring", 229); ("atilde", 227); ("auml", 228);
    ("brvbar", 166); ("ccedil", 231); ("cedil", 184); ("cent", 162); ("copy", 169);
    ("curren", 164); ("deg", 176); ("divide", 247); ("eacute", 233); ("ecirc", 234);
    ("egrave", 232); ("eth", 240); ("euml", 235); ("frac12", 189); ("frac14", 188);
    ("frac34", 190); ("gt", 62); ("iacute", 237); ("icirc", 238); ("iexcl", 161);
    ("igrave", 236); ("iquest", 191); ("iuml", 239); ("laquo", 171); ("lt", 60);
    ("macr", 175); ("micro", 181); ("middot", 183); ("nbsp", 160); ("not", 172);
    ("ntilde", 241); ("oacute", 243); ("ocirc", 244); ("ograve", 242); ("ordf", 170);
    ("ordm", 186); ("oslash", 248); ("otilde", 245); ("ouml", 246); ("para", 182);
    ("plusmn", 177); ("pound", 163); ("quot", 34); ("raquo", 187); ("reg", 174);
    ("sect", 167); ("shy", 173); ("sup1", 185); ("sup2", 178); ("sup3", 179);
    ("szlig", 223); ("thorn", 254); ("times", 215); ("uacute", 250); ("ucirc", 251);
    ("ugrave", 249); ("uml", 168); ("uuml", 252); ("yacute", 253); ("yen", 165);
    ("yuml", 255) ].
Local Close Scope string_scope.

Definition rstrip_semicolon (s : str) : str :=
  reverse (drop (run (λ c, c =? ch ";") (reverse s)) (reverse s)).

(** [s in _html5] and [_html5[s]], on the names the model keeps. *)
Definition html5 (s : str) : option str :=
  if str_eqb s (py "apos;") then Some (py "'")
  else
    let name := if bool_decide (length s = S (length (rstrip_semicolon s))) then rstrip_semicolon s else s in
    match List.find (λ e : string * N, str_eqb (py e.1) name) legacy_names with
    | Some e => Some [e.2]
    | None => None
    end.

(** [for x in range(len(s)-1, 1, -1): if s[:x] in _html5: return _html5[s[:x]] + s[x:]] *)
Fixpoint longest_name (x : nat) (s : str) : option str :=
  match x with
  | O => None
  | S x' =>
      if bool_decide (2 ≤ x)%nat then
        match html5 (take x s) with
        | Some v => Some (v ++ drop x s)
        | None => longest_name x' s
        end
      else None
  end.

Definition numeric_charref (num : N) : str :=
  match invalid_charrefs num with
  | Some r => r
  | None =>
      if ((0xD800 <=? num) && (num <=? 0xDFFF)) || (0x10FFFF <? num) then [0xFFFD]
      else if invalid_codepoints num then []
      else [num]
  end.

Definition replace_charref (s : str) : str :=
  match s with
  | c :: r =>
      if c =? ch "#" then
        match r with
        | x :: r' =>
            if (x =? ch "x") || (x =? ch "X")
            then numeric_charref (int_of 16 (rstrip_semicolon r'))
            else numeric_charref (int_of 10 (rstrip_semicolon r))
        | [] => []
        end
      else
        match html5 s with
        | Some v => v
        | None =>
            match longest_name (length s - 1) s with
            | Some v => v
            | None => ch "&" :: s
            end
        end
  | [] => []
  end.

(** [_charref.sub(_replace_charref, s)] *)
Fixpoint charref_sub (skip : nat) (s : str) : str :=
  match s with
  | [] => []
  | c :: s' =>
      match skip with
      | S k => charref_sub k s'
      | O =>
          if c =? ch "&" then
            match match_charref s' with
            | Some g => replace_charref g ++ charref_sub (length g) s'
            | None => c :: charref_sub 0 s'
            end
          else c :: charref_sub 0 s'
      end
  end.

Definition unescape (s : str) : str :=
  if negb (existsb (λ c, c =? ch "&") s) then s else charref_sub 0 s.

(** [str.isspace] of a character: the whole list of Unicode 14. *)
Definition isspace (c : N) : bool :=
  ((0x09 <=? c) && (c <=? 0x0d)) || ((0x1c <=? c) && (c <=? 0x20))
  || (c =? 0x85) || (c =? 0xa0) || (c =? 0x1680)
  || ((0x2000 <=? c) && (c <=? 0x200a)) || (c =? 0x2028) || (c =? 0x2029)
  || (c =? 0x202f) || (c =? 0x205f) || (c =? 0x3000).

(** The compatibility decomposition of one character. *)
Definition decomposition (c : N) : str :=
  match c with
  | 0xa0 => [0x20] | 0xa8 => [0x20; 0x308] | 0xaa => [0x61]
  | 0xaf => [0x20; 0x304] | 0xb2 => [0x32] | 0xb3 => [0x33]
  | 0xb4 => [0x20; 0x301] | 0xb5 => [0x3bc] | 0xb8 => [0x20; 0x327]
  | 0xb9 => [0x31] | 0xba => [0x6f] | 0xbc => [0x31; 0x2044; 0x34]
  | 0xbd => [0x31; 0x2044; 0x32] | 0xbe => [0x33; 0x2044; 0x34] | 0xc0 => [0x41; 0x300]
  | 0xc1 => [0x41; 0x301] | 0xc2 => [0x41; 0x302] | 0xc3 => [0x41; 0x303]
  | 0xc4 => [0x41; 0x308] | 0xc5 => [0x41; 0x30a] | 0xc7 => [0x43; 0x327]
  | 0xc8 => [0x45; 0x300] | 0xc9 => [0x45; 0x301] | 0xca => [0x45; 0x302]
  | 0xcb => [0x45; 0x308] | 0xcc => [0x49; 0x300] | 0xcd => [0x49; 0x301]
  | 0xce => [0x49; 0x302] | 0xcf => [0x49; 0x308] | 0xd1 => [0x4e; 0x303]
  | 0xd2 => [0x4f; 0x300] | 0xd3 => [0x4f; 0x301] | 0xd4 => [0x4f; 0x302]
  | 0xd5 => [0x4f; 0x303] | 0xd6 => [0x4f; 0x308] | 0xd9 => [0x55; 0x300]
  | 0xda => [0x55; 0x301] | 0xdb => [0x55; 0x302] | 0xdc => [0x55; 0x308]
  | 0xdd => [0x59; 0x301] | 0xe0 => [0x61; 0x300] | 0xe1 => [0x61; 0x301]
  | 0xe2 => [0x61; 0x302] | 0xe3 => [0x61; 0x303] | 0xe4 => [0x61; 0x308]
  | 0xe5 => [0x61; 0x30a] | 0xe7 => [0x63; 0x327] | 0xe8 => [0x65; 0x300]
  | 0xe9 => [0x65; 0x301] | 0xea => [0x65; 0x302] | 0xeb => [0x65; 0x308]
  | 0xec => [0x69; 0x300] | 0xed => [0x69; 0x301] | 0xee => [0x69; 0x302]
  | 0xef => [0x69; 0x308] | 0xf1 => [0x6e; 0x303] | 0xf2 => [0x6f; 0x300]
  | 0xf3 => [0x6f; 0x301] | 0xf4 => [0x6f; 0x302] | 0xf5 => [0x6f; 0x303]
  | 0xf6 => [0x6f; 0x308] | 0xf9 => [0x75; 0x300] | 0xfa => [0x75; 0x301]
  | 0xfb => [0x75; 0x302] | 0xfc => [0x75; 0x308] | 0xfd => [0x79; 0x301]
  | 0xff => [0x79; 0x308]
  | _ => [c]
  end.

(** The strings of the model hold no combining mark, so that the canonical
    reordering of NFKD has nothing to reorder. *)
Definition nfkd (s : str) : str := flat_map decomposition s.

Definition combining (c : N) : N :=
  if (c =? 0x327) then 202
  else if (0x300 <=? c) && (c <=? 0x304) || (c =? 0x308) || (c =? 0x30a) then 230
  else 0.

Definition casefold_char (c : N) : str :=
  if (ch "A" <=? c) && (c <=? ch "Z") then [c + 32]
  else if c =? 0xb5 then [0x3bc]
  else if c =? 0xdf then py "ss"
  else if (0xc0 <=? c) && (c <=? 0xde) && negb (c =? 0xd7) then [c + 32]
  else [c].

Definition casefold (s : str) : str := flat_map casefold_char s.

Definition lib : unicode := Build_unicode unescape isspace nfkd combining casefold.

End PyLib.

(** What the last three steps of [norm] (NFKD, removal of the combining
    marks, case folding) make of one character. *)
Definition norm_char (c : N) : str :=
  PyLib.casefold (List.filter (λ c, PyLib.combining c =? 0) (PyLib.nfkd [c])).

(** The code points below 256 other than the four spacing accents U+00A8,
    U+00AF, U+00B4 and U+00B8, which NFKD turns into a space and a combining
    mark. *)
Definition stable_latin1 (c : N) : bool :=
  (c <? 256) && negb ((c =? 0xa8) || (c =? 0xaf) || (c =? 0xb4) || (c =? 0xb8)).

(** The test of [stable_char] on the tables, for one character: its image is
    not empty, is made of whitespace exactly when the character is whitespace,
    and every character of the image is its own image. *)
Definition stable_latin1_test (c : N) : bool :=
  implb (stable_latin1 c)
    (negb (str_eqb (norm_char c) [])
     && forallb (λ c', Bool.eqb (PyLib.isspace c') (PyLib.isspace c)
                       && str_eqb (norm_char c') [c']) (norm_char c)).

(** A line terminator that [VEVENT_RE] accepts. *)
Definition newline (x : str) : Prop := x = py "\n" ∨ x = py "\r\n".

(** The texts that [VEVENT_RE] matches: the begin marker, a body and the
    end marker, each marker followed by a line terminator. *)
Definition vevent_text (ev : str) : Prop :=
  ∃ nl1 body nl2 nl3,
    newline nl1 ∧ newline nl2 ∧ newline nl3
    ∧ ev = py "BEGIN:VEVENT" ++ nl1 ++ body ++ nl2 ++ py "END:VEVENT" ++ nl3.

(** The pieces [gaps] and the events [es] laid out in turn, then [tail]. *)
Fixpoint interleave (gaps es : list str) (tail : str) : str :=
  match gaps, es with
  | g :: gaps', e :: es' => g ++ e ++ interleave gaps' es' tail
  | _, _ => tail
  end.

(** Strings without CR and LF. *)
Definition plain (s : str) : Prop := Forall (λ c, c ≠ CR ∧ c ≠ LF) s.

(** The upper-case form of an ASCII letter. *)
Definition ascii_upper (c : N) : N :=
  if (ch "a" <=? c) && (c <=? ch "z") then c - 32 else c.

(** [r'] ends with the exception that [r] ends with. *)
Definition raised {A B : Type} (r : result A) (r' : result B) : Prop :=
  match r, r' with
  | RuntimeError msg, RuntimeError msg' => msg = msg'
  | HTTPError, HTTPError => True
  | _, _ => False
  end.

(** The line that [main] prints. *)
Definition ok_line (merged : list str) : str :=
  py "OK: " ++ str_of_N (N.of_nat (length merged)) ++ py " Events -> calendar.ics".

(** * Properties *)

#[local] Arguments N.eqb : simpl never.
#[local] Arguments py : simpl never.

(** ** Strings *)

Lemma startswith_spec (p s : str) : startswith p s = true ↔ ∃ r, s = p ++ r.
Proof.
  revert s. induction p as [|a p IH]; intros s; simpl.
  - split; [eauto | done].
  - destruct s as [|b s].
    + split; [done | intros [r Hr]; discriminate].
    + rewrite andb_true_iff, N.eqb_eq, IH. split.
      * intros [-> [r ->]]. by exists r.
      * intros [r Hr]. injection Hr as -> ->. eauto.
Qed.

Lemma startswith_app (p r : str) : startswith p (p ++ r) = true.
Proof. apply startswith_spec. eauto. Qed.

Lemma startswith_drop (p s : str) : startswith p s = true → s = p ++ drop (length p) s.
Proof. intros [r ->]%startswith_spec. by rewrite drop_app_length. Qed.

Lemma str_eqb_eq (a b : str) : str_eqb a b = true ↔ a = b.
Proof.
  revert b. induction a as [|x a IH]; intros [|y b]; simpl; try done.
  rewrite andb_true_iff, N.eqb_eq, IH. split; [by intros [-> ->] | by intros [= -> ->]].
Qed.

Lemma str_eqb_refl (a : str) : str_eqb a a = true.
Proof. by apply str_eqb_eq. Qed.

Lemma str_in_spec (needle hay : str) :
  str_in needle hay = true ↔ ∃ pre post, hay = pre ++ needle ++ post.
Proof.
  induction hay as [|c hay IH]; simpl.
  - rewrite orb_false_r, startswith_spec. split.
    + intros [r Hr]. by exists [], r.
    + intros (pre & post & H). symmetry in H.
      apply app_eq_nil in H as [-> H]. exists post. done.
  - rewrite orb_true_iff, startswith_spec, IH. split.
    + intros [[r Hr] | (pre & post & ->)].
      * by exists [], r.
      * by exists (c :: pre), post.
    + intros ([|d pre] & post & H); simpl in H.
      * left. eauto.
      * right. injection H as -> ->. eauto.
Qed.

(** ** Feed fetcher *)

Lemma replace_cr_cons (c : N) (s : str) :
  replace [CR] [LF] (c :: s) = (if c =? CR then LF else c) :: replace [CR] [LF] s.
Proof.
  unfold replace. simpl. rewrite andb_true_r, (N.eqb_sym CR c).
  by destruct (c =? CR).
Qed.

Lemma replace_lf_cons (c : N) (s : str) :
  replace [LF] [CR; LF] (c :: s)
  = (if c =? LF then [CR; LF] else [c]) ++ replace [LF] [CR; LF] s.
Proof.
  unfold replace. simpl. rewrite andb_true_r, (N.eqb_sym LF c).
  by destruct (c =? LF).
Qed.

Lemma replace_crlf_break (s : str) :
  replace [CR; LF] [LF] (CR :: LF :: s) = LF :: replace [CR; LF] [LF] s.
Proof. done. Qed.

Lemma replace_crlf_other (c : N) (s : str) :
  (c =? CR) && startswith [LF] s = false →
  replace [CR; LF] [LF] (c :: s) = c :: replace [CR; LF] [LF] s.
Proof.
  intros H. unfold replace. simpl.
  rewrite (N.eqb_sym CR c). destruct s as [|d s]; simpl in *.
  - by rewrite andb_false_r.
  - by rewrite H.
Qed.

Lemma replace_cr_no_cr (s : str) : CR ∉ replace [CR] [LF] s.
Proof.
  induction s as [|c s IH]; [apply not_elem_of_nil|].
  rewrite replace_cr_cons. apply not_elem_of_cons. split; [|done].
  destruct (N.eqb_spec c CR); [done | congruence].
Qed.

Lemma replace_lf_crlf_text (s : str) : CR ∉ s → crlf_text (replace [LF] [CR; LF] s).
Proof.
  induction s as [|c s IH]; intros H; [constructor|].
  apply not_elem_of_cons in H as [Hc Hs]. rewrite replace_lf_cons.
  destruct (N.eqb_spec c LF) as [->|Hne]; simpl.
  - apply crlf_break. auto.
  - apply crlf_char; auto.
Qed.

Lemma crlf_text_breaks (s : str) : crlf_text s → breaks_are_crlf s.
Proof.
  induction 1 as [|c s Hc1 Hc2 _ IH|s _ IH]; intros i.
  - split; intros H; by destruct i.
  - destruct i as [|i]; simpl.
    + split; intros [= ->]; done.
    + destruct (IH i) as [IH1 IH2]. split; [|done].
      intros (j & -> & Hj)%IH1. by exists (S j).
  - destruct i as [|[|i]]; simpl.
    + split; [intros [=] | done].
    + split; [by exists O | intros [=]].
    + destruct (IH i) as [IH1 IH2]. split; [|done].
      intros (j & -> & Hj)%IH1. by exists (S (S j)).
Qed.

Lemma content_cons (c : N) (s : str) :
  content (c :: s) = if negb (c =? CR) && negb (c =? LF) then c :: content s else content s.
Proof. done. Qed.

Lemma content_app (a b : str) : content (a ++ b) = content a ++ content b.
Proof. apply List.filter_app. Qed.

Lemma content_replace_cr (s : str) : content (replace [CR] [LF] s) = content s.
Proof.
  induction s as [|c s IH]; [done|].
  rewrite replace_cr_cons, !content_cons, IH.
  destruct (c =? CR) eqn:E; [by apply N.eqb_eq in E as ->|].
  by rewrite E.
Qed.

Lemma content_replace_lf (s : str) : content (replace [LF] [CR; LF] s) = content s.
Proof.
  induction s as [|c s IH]; [done|].
  rewrite replace_lf_cons, content_app, IH, content_cons.
  destruct (c =? LF) eqn:E; [by apply N.eqb_eq in E as ->|].
  rewrite content_cons, E. by destruct (c =? CR).
Qed.

Lemma content_replace_crlf (s : str) : content (replace [CR; LF] [LF] s) = content s.
Proof.
  remember (length s) as n eqn:Hn. revert s Hn.
  induction n as [n IH] using lt_wf_ind. intros s ->.
  destruct s as [|c s]; [done|].
  destruct ((c =? CR) && startswith [LF] s) eqn:E.
  - apply andb_true_iff in E as [->%N.eqb_eq [r ->]%startswith_spec].
    simpl app. rewrite replace_crlf_break, !content_cons. simpl.
    apply (IH (length r)); simpl; [lia | done].
  - rewrite replace_crlf_other, !content_cons by done.
    rewrite (IH (length s)); simpl; [done | lia | done].
Qed.

(** C8: whatever terminators the response uses, in the text that [fetch_ics]
    returns every LF directly follows a CR and every CR is directly followed by
    a LF, so that every line break is exactly CR LF; the characters other than
    CR and LF are those of the response, in the same order. *)
Theorem normalize_crlf_breaks (text : str) :
  breaks_are_crlf (normalize_crlf text) ∧ content (normalize_crlf text) = content text.
Proof.
  unfold normalize_crlf. change (py "\n") with [LF]. change (py "\r\n") with [CR; LF].
  change (py "\r") with [CR]. split.
  - apply crlf_text_breaks, replace_lf_crlf_text, replace_cr_no_cr.
  - by rewrite content_replace_lf, content_replace_cr, content_replace_crlf.
Qed.

(** ** Merge and dedupe *)

Lemma dict_keys_set {K V : Type} `{EqDecision K} (k : K) (v : V) (d : dict K V) :
  dict_keys (dict_set k v d)
  = if decide (k ∈ dict_keys d) then dict_keys d else dict_keys d ++ [k].
Proof.
  induction d as [|[k' v'] d IH]; simpl; [done|].
  destruct (decide (k = k')) as [->|Hne]; simpl.
  - destruct (decide (k' ∈ k' :: dict_keys d)) as [Hin|Hin]; [done|].
    destruct Hin. apply list_elem_of_here.
  - fold (dict_keys (dict_set k v d)). fold (dict_keys d). rewrite IH.
    destruct (decide (k ∈ dict_keys d)) as [Hin|Hin];
      destruct (decide (k ∈ k' :: dict_keys d)) as [Hin'|Hin']; try done.
    + destruct Hin'. by apply list_elem_of_further.
    + by apply elem_of_cons in Hin' as [?|?].
Qed.

Lemma dedupe_snoc_keys (l : list str) (x : str) :
  dedupe (l ++ [x]) = if decide (x ∈ dedupe l) then dedupe l else dedupe l ++ [x].
Proof.
  unfold dedupe, dict_fromkeys. rewrite fold_left_app. simpl.
  apply dict_keys_set.
Qed.

Lemma elem_of_dedupe (l : list str) (x : str) : x ∈ dedupe l ↔ x ∈ l.
Proof.
  induction l as [|y l IH] using rev_ind.
  - done.
  - rewrite dedupe_snoc_keys, elem_of_app, list_elem_of_singleton.
    destruct (decide (y ∈ dedupe l)) as [Hy|Hy].
    + rewrite IH. split; [auto|]. intros [?| ->]; [done|]. by apply IH.
    + rewrite elem_of_app, list_elem_of_singleton, IH. done.
Qed.

Lemma dedupe_snoc (l : list str) (x : str) :
  dedupe (l ++ [x]) = if decide (x ∈ l) then dedupe l else dedupe l ++ [x].
Proof.
  rewrite dedupe_snoc_keys.
  destruct (decide (x ∈ dedupe l)) as [H|H], (decide (x ∈ l)) as [H'|H']; try done.
  - destruct H'. by apply elem_of_dedupe.
  - destruct H. by apply elem_of_dedupe.
Qed.

Lemma NoDup_dedupe (l : list str) : NoDup (dedupe l).
Proof.
  induction l as [|y l IH] using rev_ind; [constructor|].
  rewrite dedupe_snoc_keys. destruct (decide (y ∈ dedupe l)) as [Hy|Hy]; [done|].
  apply NoDup_app. split_and!; [done | | apply NoDup_singleton].
  intros z Hz ->%list_elem_of_singleton. done.
Qed.

Lemma dedupe_sublist (l : list str) : dedupe l `sublist_of` l.
Proof.
  induction l as [|y l IH] using rev_ind; [done|].
  rewrite dedupe_snoc. destruct (decide (y ∈ l)).
  - by apply sublist_inserts_r.
  - by apply sublist_app.
Qed.

(** C7: the dedupe keeps the records in their order and drops exactly the
    records that are equal, as texts, to an earlier record: a record that
    follows the records [l] is dropped when it occurs in [l] and is kept, at
    the end, otherwise.  The result has no duplicate, holds the same records
    and is a subsequence of the input; [A, B, A] gives [A, B]. *)
Theorem dedupe_keeps_first_occurrences (merged : list str) :
  dedupe [] = []
  ∧ (∀ l x, dedupe (l ++ [x]) = if decide (x ∈ l) then dedupe l else dedupe l ++ [x])
  ∧ NoDup (dedupe merged)
  ∧ (∀ x, x ∈ dedupe merged ↔ x ∈ merged)
  ∧ dedupe merged `sublist_of` merged
  ∧ (∀ A B : str, A ≠ B → dedupe [A; B; A] = [A; B]).
Proof.
  split_and!.
  - done.
  - apply dedupe_snoc.
  - apply NoDup_dedupe.
  - intros x. apply elem_of_dedupe.
  - apply dedupe_sublist.
  - intros A B HAB. unfold dedupe, dict_fromkeys. simpl.
    rewrite (decide_False (P := B = A)) by done. simpl.
    by rewrite (decide_True (P := A = A)).
Qed.

(** ** Identifier resolver *)

Section Resolver.

Context (U : unicode).

Lemma candidates_of_filter (opts : list (str * str)) :
  candidates_of U opts = map (candidate_of U) (List.filter (kept_option U) opts).
Proof.
  unfold candidates_of.
  enough (∀ acc, fold_left
    (λ candidates '(val, label),
       let label_clean := norm U (strip_tags label) in
       if str_eqb (strip U val) (py "-1") || str_eqb (strip U val) (py "")
       then candidates
       else candidates ++ [(label_clean, strip U val, strip U (strip_tags label))])
    opts acc = acc ++ map (candidate_of U) (List.filter (kept_option U) opts)) as H
    by apply (H []).
  induction opts as [|[val label] opts IH]; intros acc; simpl.
  - by rewrite app_nil_r.
  - rewrite IH. unfold kept_option at 2. simpl.
    destruct (str_eqb (strip U val) (py "-1") || str_eqb (strip U val) (py "")); simpl.
    + done.
    + by rewrite <- app_assoc.
Qed.

Lemma exact_pass_found (wanted : str) (pre post : list candidate) (val orig : str) :
  Forall (λ c, ¬ exact_match wanted c) pre →
  exact_pass wanted (pre ++ (wanted, val, orig) :: post) = Some val.
Proof.
  induction 1 as [|[[lc v] o] pre Hc _ IH]; simpl.
  - by rewrite str_eqb_refl.
  - destruct (str_eqb lc wanted) eqn:E; [|done].
    apply str_eqb_eq in E. by destruct Hc.
Qed.

Lemma exact_pass_none (wanted : str) (candidates : list candidate) :
  Forall (λ c, ¬ exact_match wanted c) candidates → exact_pass wanted candidates = None.
Proof.
  induction 1 as [|[[lc v] o] cs Hc _ IH]; simpl; [done|].
  destruct (str_eqb lc wanted) eqn:E; [|done].
  apply str_eqb_eq in E. by destruct Hc.
Qed.

Lemma contains_test (wanted lc : str) :
  str_in wanted lc || str_in lc wanted = true ↔ substring wanted lc ∨ substring lc wanted.
Proof. by rewrite orb_true_iff, !str_in_spec. Qed.

Lemma contains_pass_found (wanted : str) (pre post : list candidate) (lc val orig : str) :
  Forall (λ c, ¬ contains_match wanted c) pre →
  contains_match wanted (lc, val, orig) →
  contains_pass wanted (pre ++ (lc, val, orig) :: post) = Some val.
Proof.
  intros Hpre Hc. induction Hpre as [|[[lc' v] o] pre Hc' _ IH]; simpl.
  - apply contains_test in Hc. simpl in Hc. by rewrite Hc.
  - destruct (str_in wanted lc' || str_in lc' wanted) eqn:E; [|done].
    apply contains_test in E. by destruct Hc'.
Qed.

Lemma contains_pass_none (wanted : str) (candidates : list candidate) :
  Forall (λ c, ¬ contains_match wanted c) candidates → contains_pass wanted candidates = None.
Proof.
  induction 1 as [|[[lc v] o] cs Hc _ IH]; simpl; [done|].
  destruct (str_in wanted lc || str_in lc wanted) eqn:E; [|done].
  apply contains_test in E. by destruct Hc.
Qed.

End Resolver.

Lemma exact_match_test (wanted : str) (c : candidate) :
  exact_match wanted c ↔ str_eqb c.1.1 wanted = true.
Proof. unfold exact_match. by rewrite str_eqb_eq. Qed.

Lemma contains_match_test (wanted : str) (c : candidate) :
  contains_match wanted c ↔ str_in wanted c.1.1 || str_in c.1.1 wanted = true.
Proof. unfold contains_match. by rewrite contains_test. Qed.

(** C4: the resolver makes a candidate of every option whose stripped value
    is neither "-1" nor empty, and matches in two tiers.  A candidate whose
    normalized label equals the normalized wanted name, with no such candidate
    before it, gives the result.  When no candidate matches exactly, the first
    candidate whose normalized label contains the normalized wanted name or is
    contained in it gives the result.  For the options
    ("425276", "TSV Grombühl 2"), ("425277", "TSV Grombühl") and the wanted
    name "TSV Grombühl 2" the result is "425276". *)
Theorem fetch_team_id_two_tier (U : unicode) (http_options : str → option (list (str * str)))
    (team_name liga_id : str) (opts : list (str * str)) :
  http_options liga_id = Some opts →
  let wanted := norm U team_name in
  let candidates := map (candidate_of U) (List.filter (kept_option U) opts) in
  (∀ pre val orig post,
     candidates = pre ++ (wanted, val, orig) :: post →
     Forall (λ c, ¬ exact_match wanted c) pre →
     fetch_team_id U http_options team_name liga_id = Ok val)
  ∧ (∀ pre lc val orig post,
       candidates = pre ++ (lc, val, orig) :: post →
       Forall (λ c, ¬ exact_match wanted c) candidates →
       Forall (λ c, ¬ contains_match wanted c) pre →
       contains_match wanted (lc, val, orig) →
       fetch_team_id U http_options team_name liga_id = Ok val)
  ∧ resolve PyLib.lib (py "TSV Gromb\xfchl 2") liga_id
      [(py "425276", py "TSV Gromb\xfchl 2"); (py "425277", py "TSV Gromb\xfchl")]
    = Ok (py "425276").
Proof.
  intros Hpage wanted candidates. unfold fetch_team_id, resolve. rewrite Hpage.
  rewrite candidates_of_filter. fold wanted candidates. split_and!.
  - intros pre val orig post -> Hpre. by rewrite exact_pass_found.
  - intros pre lc val orig post Hc Hexact Hpre Hlc.
    rewrite exact_pass_none by done. rewrite Hc.
    by rewrite (contains_pass_found wanted pre post lc val orig).
  - vm_compute. reflexivity.
Qed.

Lemma fetch_team_id_two_tier_witness :
  fetch_team_id PyLib.lib
    (λ _, Some [(py "425276", py "TSV Gromb\xfchl 2"); (py "425277", py "TSV Gromb\xfchl")])
    (py "TSV Gromb\xfchl 2") (py "51127") = Ok (py "425276")
  ∧ fetch_team_id PyLib.lib
      (λ _, Some [(py "-1", py "- alle Mannschaften -"); (py "425277", py "TSV Gromb\xfchl 1")])
      (py "Gromb\xfchl") (py "52205") = Ok (py "425277").
Proof.
  split.
  - destruct (fetch_team_id_two_tier PyLib.lib
      (λ _, Some [(py "425276", py "TSV Gromb\xfchl 2"); (py "425277", py "TSV Gromb\xfchl")])
      (py "TSV Gromb\xfchl 2") (py "51127") _ eq_refl) as (Hexact & _ & _).
    apply (Hexact [] (py "425276") (py "TSV Gromb\xfchl 2")
             [(py "tsv grombuhl", py "425277", py "TSV Gromb\xfchl")]).
    + vm_compute. reflexivity.
    + constructor.
  - destruct (fetch_team_id_two_tier PyLib.lib
      (λ _, Some [(py "-1", py "- alle Mannschaften -"); (py "425277", py "TSV Gromb\xfchl 1")])
      (py "Gromb\xfchl") (py "52205") _ eq_refl) as (_ & Hcontains & _).
    apply (Hcontains [] (py "tsv grombuhl 1") (py "425277") (py "TSV Gromb\xfchl 1") []).
    + vm_compute. reflexivity.
    + constructor; [|constructor]. rewrite exact_match_test. vm_compute. discriminate.
    + constructor.
    + apply contains_match_test. vm_compute. reflexivity.
Defined.

(** C9: when no candidate passes the exact test or the containment test,
    the resolver returns no team id: it raises an error whose message holds the
    wanted name, the league id and the labels of the first candidates, at most
    ten of them and at least one when there is a candidate. *)
Theorem fetch_team_id_not_found (U : unicode) (http_options : str → option (list (str * str)))
    (team_name liga_id : str) (opts : list (str * str)) :
  http_options liga_id = Some opts →
  let wanted := norm U team_name in
  let candidates := map (candidate_of U) (List.filter (kept_option U) opts) in
  let sample := map (λ c : candidate, c.2) (take 10 candidates) in
  Forall (λ c, ¬ exact_match wanted c ∧ ¬ contains_match wanted c) candidates →
  fetch_team_id U http_options team_name liga_id
  = RuntimeError (py "Team '" ++ team_name ++ py "' nicht im Dropdown gefunden (liga_id="
                    ++ liga_id ++ py "). Beispieloptionen: " ++ join (py ", ") sample)
  ∧ (∀ val, fetch_team_id U http_options team_name liga_id ≠ Ok val)
  ∧ (length sample ≤ 10)%nat
  ∧ (candidates ≠ [] → (1 ≤ length sample)%nat).
Proof.
  intros Hpage wanted candidates sample Hnone.
  assert (fetch_team_id U http_options team_name liga_id
          = RuntimeError (not_found_message team_name liga_id candidates)) as Hres.
  { unfold fetch_team_id, resolve. rewrite Hpage, candidates_of_filter.
    fold wanted candidates.
    rewrite exact_pass_none, contains_pass_none; [done | |].
    - eapply Forall_impl; [exact Hnone | by intros c [_ ?]].
    - eapply Forall_impl; [exact Hnone | by intros c [? _]]. }
  split_and!.
  - rewrite Hres. unfold not_found_message. fold sample. f_equal.
  - intros val. by rewrite Hres.
  - unfold sample. rewrite length_map, length_take. lia.
  - intros Hne. unfold sample. rewrite length_map, length_take.
    destruct candidates; [done | simpl; lia].
Qed.

Lemma fetch_team_id_not_found_witness :
  fetch_team_id PyLib.lib
    (λ _, Some [(py "-1", py "- alle Mannschaften -"); (py "7", py "<b>Alpha</b> 1"); (py "8", py "Beta")])
    (py "TSV Gromb\xfchl") (py "52205")
  = RuntimeError
      (py "Team 'TSV Gromb\xfchl' nicht im Dropdown gefunden (liga_id=52205). Beispieloptionen: Alpha 1, Beta").
Proof.
  refine (proj1 (fetch_team_id_not_found PyLib.lib
    (λ _, Some [(py "-1", py "- alle Mannschaften -"); (py "7", py "<b>Alpha</b> 1"); (py "8", py "Beta")])
    (py "TSV Gromb\xfchl") (py "52205") _ eq_refl _)).
  repeat constructor.
  all: rewrite ?exact_match_test, ?contains_match_test; vm_compute; discriminate.
Defined.

(** ** The substitutions on field lines *)

Lemma dot_run_take (s : str) (k : nat) : (k ≤ dot_run s)%nat → LF ∉ take k s.
Proof.
  revert k. induction s as [|c s IH]; intros k Hk.
  - rewrite take_nil. apply not_elem_of_nil.
  - destruct k as [|k]; [apply not_elem_of_nil|]. simpl in *.
    destruct (N.eqb_spec c LF) as [->|Hc]; [lia|].
    apply not_elem_of_cons. split; [done|]. apply IH. lia.
Qed.

Lemma dot_run_length (s : str) : (dot_run s ≤ length s)%nat.
Proof.
  induction s as [|c s IH]; simpl; [lia|]. destruct (c =? LF); lia.
Qed.

Lemma dot_run_app (g rest : str) : LF ∉ g → dot_run (g ++ LF :: rest) = length g.
Proof.
  induction g as [|c g IH]; intros Hg; simpl.
  - done.
  - apply not_elem_of_cons in Hg as [Hc Hg].
    destruct (N.eqb_spec c LF) as [->|_]; [done|]. by rewrite IH.
Qed.

Lemma dot_plus_crlf_S (k : nat) (s : str) :
  dot_plus_crlf (S k) s
  = if startswith [CR; LF] (drop (S k) s) then Some (take (S k) s) else dot_plus_crlf k s.
Proof. done. Qed.

Lemma dot_plus_crlf_Some (k : nat) (s g : str) :
  dot_plus_crlf k s = Some g →
  ∃ k', (1 ≤ k' ≤ k)%nat ∧ g = take k' s ∧ startswith [CR; LF] (drop k' s) = true.
Proof.
  induction k as [|k IH]; [done|]. rewrite dot_plus_crlf_S.
  destruct (startswith [CR; LF] (drop (S k) s)) eqn:E.
  - intros [= <-]. exists (S k). split_and!; [lia | lia | done | done].
  - intros (k' & ? & ? & ?)%IH. exists k'. split_and!; [lia | lia | done | done].
Qed.

Lemma dot_plus_crlf_hit (g rest : str) :
  g ≠ [] → dot_plus_crlf (S (length g)) (g ++ CR :: LF :: rest) = Some g.
Proof.
  intros Hg. rewrite dot_plus_crlf_S.
  replace (drop (S (length g)) (g ++ CR :: LF :: rest)) with (LF :: rest).
  2:{ change (CR :: LF :: rest) with ([CR] ++ LF :: rest). rewrite app_assoc.
      replace (S (length g)) with (length (g ++ [CR]))
        by (rewrite length_app; simpl; lia).
      by rewrite drop_app_length. }
  change (startswith [CR; LF] (LF :: rest)) with false. cbv iota.
  destruct (length g) as [|n] eqn:Hn; [by destruct g|].
  rewrite dot_plus_crlf_S, <- Hn, drop_app_length, take_app_length. done.
Qed.

(** The pattern matches at the head of a text exactly when the text starts
    with the tag, a non-empty value without LF, and CR LF; group 1 is the
    value. *)
Lemma match_field_spec (tag s g : str) :
  match_field tag s = Some g ↔
  g ≠ [] ∧ (LF ∉ g) ∧ ∃ rest, s = tag ++ g ++ CR :: LF :: rest.
Proof.
  unfold match_field. split.
  - destruct (startswith tag s) eqn:Htag; [|done].
    apply startswith_drop in Htag. set (r := drop (length tag) s) in *.
    intros (k & Hk & -> & [rest Hrest]%startswith_spec)%dot_plus_crlf_Some.
    assert (k ≤ length r)%nat by (pose proof (dot_run_length r); lia).
    split_and!.
    + intros Hnil%(f_equal length). rewrite length_take in Hnil. simpl in Hnil. lia.
    + apply dot_run_take. lia.
    + exists rest. rewrite Htag at 1. f_equal.
      rewrite <- (take_drop k r) at 1. by rewrite Hrest.
  - intros (Hg & Hlf & rest & ->).
    rewrite startswith_app, drop_app_length.
    replace (dot_run (g ++ CR :: LF :: rest)) with (S (length g)).
    + by apply dot_plus_crlf_hit.
    + change (CR :: LF :: rest) with ([CR] ++ LF :: rest). rewrite app_assoc, dot_run_app.
      * rewrite length_app. simpl. lia.
      * intros [?|?%list_elem_of_singleton]%elem_of_app; done.
Qed.

Lemma first_lf_unique (a b x y : str) :
  LF ∉ a → LF ∉ b → a ++ LF :: x = b ++ LF :: y → a = b ∧ x = y.
Proof.
  revert b. induction a as [|c a IH]; intros [|d b] Ha Hb; simpl; intros H.
  - by injection H as ->.
  - injection H as <- _. destruct Hb. apply list_elem_of_here.
  - injection H as -> _. destruct Ha. apply list_elem_of_here.
  - injection H as -> H. apply not_elem_of_cons in Ha as [_ Ha], Hb as [_ Hb].
    by destruct (IH b Ha Hb H) as [-> ->].
Qed.

Lemma concat_lines (s : str) : concat (lines s) = s.
Proof.
  induction s as [|c s IH]; [done|]. simpl.
  destruct (c =? LF); simpl; [by rewrite IH|].
  destruct (lines s) as [|l ls]; simpl in *; by rewrite <- IH.
Qed.

Lemma lines_first (s : str) :
  s ≠ [] →
  ∃ line rest, s = line ++ rest ∧ lines s = line :: lines rest
               ∧ (full_line line ∨ (line ≠ [] ∧ (LF ∉ line) ∧ rest = [])).
Proof.
  induction s as [|c s IH]; [done|]. intros _. simpl.
  destruct (N.eqb_spec c LF) as [->|Hc].
  - exists [LF], s. split_and!; [done | done |]. left. exists []. split; [done|].
    apply not_elem_of_nil.
  - destruct s as [|d s].
    + exists [c], []. split_and!; [done | done |]. right. split_and!; [done | | done].
      by intros ?%list_elem_of_singleton.
    + destruct IH as (line & rest & Hs & Hl & Hshape); [done|].
      rewrite Hl. exists (c :: line), rest. split_and!; [by rewrite Hs | done |].
      destruct Hshape as [(body & -> & Hb) | (Hne & Hlf & ->)].
      * left. exists (c :: body). split; [done|]. by apply not_elem_of_cons.
      * right. split_and!; [done | by apply not_elem_of_cons | done].
Qed.

Section SubField.

Context (tag : str) (repl : str → str).
Hypothesis tag_nonempty : tag ≠ [].
Hypothesis tag_no_lf : LF ∉ tag.

Lemma sub_field_from_cons (bol : bool) (c : N) (s : str) :
  sub_field_from tag repl bol 0 (c :: s)
  = match (if bol then match_field tag (c :: s) else None) with
    | Some g => repl g ++ sub_field_from tag repl (c =? LF) (length tag + length g + 1) s
    | None => c :: sub_field_from tag repl (c =? LF) 0 s
    end.
Proof. done. Qed.

Lemma sub_field_from_skip (bol : bool) (x y : str) (z : N) :
  sub_field_from tag repl bol (S (length x)) (x ++ z :: y)
  = sub_field_from tag repl (z =? LF) 0 y.
Proof. revert bol. induction x as [|c x IH]; intros bol; simpl; [done | apply IH]. Qed.

Lemma sub_field_from_copy (x y : str) :
  LF ∉ x →
  sub_field_from tag repl false 0 (x ++ LF :: y)
  = x ++ LF :: sub_field_from tag repl true 0 y.
Proof.
  induction x as [|c x IH]; intros Hx.
  - done.
  - apply not_elem_of_cons in Hx as [Hc Hx]. simpl app.
    rewrite sub_field_from_cons. f_equal.
    destruct (N.eqb_spec c LF) as [->|_]; [done | by apply IH].
Qed.

Lemma sub_field_from_copy_last (x : str) :
  LF ∉ x → sub_field_from tag repl false 0 x = x.
Proof.
  induction x as [|c x IH]; intros Hx; [done|].
  apply not_elem_of_cons in Hx as [Hc Hx]. rewrite sub_field_from_cons. f_equal.
  destruct (N.eqb_spec c LF) as [->|_]; [done | by apply IH].
Qed.

Lemma match_field_no_lf_head (s : str) : match_field tag (LF :: s) = None.
Proof using tag_nonempty tag_no_lf.
  destruct (match_field tag (LF :: s)) as [g|] eqn:E; [|done].
  apply match_field_spec in E as (_ & _ & rest & Hs).
  destruct tag as [|c t]; [done|]. injection Hs as <- _.
  destruct tag_no_lf. apply list_elem_of_here.
Qed.

Lemma match_field_no_lf (line : str) : LF ∉ line → match_field tag line = None.
Proof.
  intros Hl. destruct (match_field tag line) as [g|] eqn:E; [|done].
  apply match_field_spec in E as (_ & _ & rest & ->). destruct Hl.
  rewrite !elem_of_app. right. right. apply list_elem_of_further, list_elem_of_here.
Qed.

(** On a full line the pattern matches only the whole line. *)
Lemma match_field_full_line (line g : str) :
  full_line line →
  match_field tag line = Some g ↔ g ≠ [] ∧ line = tag ++ g ++ [CR; LF].
Proof using tag_no_lf.
  intros (body & -> & Hbody). rewrite match_field_spec. split.
  - intros (Hg & Hlf & rest & Hs). split; [done|].
    assert (body ++ LF :: [] = (tag ++ g ++ [CR]) ++ LF :: rest) as Hs'.
    { rewrite <- !app_assoc. exact Hs. }
    apply first_lf_unique in Hs' as [-> <-]; [| done |].
    + by rewrite <- !app_assoc.
    + rewrite !elem_of_app, list_elem_of_singleton. intros [?|[?|?]]; done.
  - intros (Hg & Hs). split; [done|].
    assert (body ++ [LF] = (tag ++ g ++ [CR]) ++ [LF]) as Hs'.
    { rewrite <- !app_assoc. exact Hs. }
    apply app_inj_tail in Hs' as [-> _]. split.
    + intros H. apply Hbody. rewrite !elem_of_app. auto.
    + exists []. by rewrite <- !app_assoc.
Qed.

Lemma match_field_first_line (line rest : str) :
  full_line line → match_field tag (line ++ rest) = match_field tag line.
Proof using tag_no_lf.
  intros Hline.
  destruct (match_field tag (line ++ rest)) as [g|] eqn:E1.
  - symmetry. apply match_field_full_line; [done|].
    apply match_field_spec in E1 as (Hg & Hlf & rest' & Hs). split; [done|].
    destruct Hline as (body & -> & Hbody).
    assert (body ++ LF :: rest = (tag ++ g ++ [CR]) ++ LF :: rest') as Hs'.
    { rewrite <- !app_assoc in *. exact Hs. }
    apply first_lf_unique in Hs' as [-> _]; [| done |].
    + by rewrite <- !app_assoc.
    + rewrite !elem_of_app, list_elem_of_singleton. intros [?|[?|?]]; done.
  - destruct (match_field tag line) as [g|] eqn:E2; [|done].
    apply match_field_spec in E2 as (Hg & Hlf & rest' & ->).
    assert (match_field tag ((tag ++ g ++ CR :: LF :: rest') ++ rest) = Some g) as E.
    { apply match_field_spec. split_and!; [done | done |].
      exists (rest' ++ rest). by rewrite <- !app_assoc. }
    congruence.
Qed.

Lemma sub_field_full_line (line rest : str) :
  full_line line →
  sub_field_from tag repl true 0 (line ++ rest)
  = rewrite_line tag repl line ++ sub_field_from tag repl true 0 rest.
Proof using tag_nonempty tag_no_lf.
  intros Hline. unfold rewrite_line.
  pose proof (match_field_first_line line rest Hline) as Hm.
  destruct Hline as (body & -> & Hbody).
  destruct body as [|c body].
  - simpl app in *. rewrite sub_field_from_cons, !match_field_no_lf_head. done.
  - apply not_elem_of_cons in Hbody as [Hc Hbody].
    rewrite <- app_assoc in *. simpl app in *.
    rewrite sub_field_from_cons, Hm.
    assert ((c =? LF) = false) as -> by by apply N.eqb_neq.
    destruct (match_field tag (c :: body ++ [LF])) as [g|] eqn:E.
    + f_equal. apply match_field_full_line in E as [Hg E].
      2:{ exists (c :: body). split; [done | by apply not_elem_of_cons]. }
      assert (length tag + length g + 1 = S (length body))%nat as ->.
      { apply (f_equal length) in E. simpl in E.
        rewrite !length_app in E. simpl in E. lia. }
      by rewrite sub_field_from_skip.
    + rewrite sub_field_from_copy by done. simpl. by rewrite <- app_assoc.
Qed.

Lemma sub_field_last_line (line : str) :
  LF ∉ line →
  sub_field_from tag repl true 0 line = line ∧ rewrite_line tag repl line = line.
Proof.
  intros Hl. unfold rewrite_line. rewrite match_field_no_lf by done. split; [|done].
  destruct line as [|c line]; [done|].
  rewrite sub_field_from_cons, match_field_no_lf by done.
  apply not_elem_of_cons in Hl as [Hc Hl].
  assert ((c =? LF) = false) as -> by by apply N.eqb_neq.
  by rewrite sub_field_from_copy_last.
Qed.

(** The substitution rewrites the text line by line. *)
Lemma sub_field_lines (text : str) :
  sub_field tag repl text = concat (map (rewrite_line tag repl) (lines text)).
Proof using tag_nonempty tag_no_lf.
  unfold sub_field.
  remember (length text) as n eqn:Hn. revert text Hn.
  induction n as [n IH] using lt_wf_ind. intros text ->.
  destruct text as [|c text]; [done|].
  destruct (lines_first (c :: text)) as (line & rest & Hs & Hl & Hshape); [done|].
  rewrite Hl, Hs. simpl map. simpl concat.
  destruct Hshape as [Hfull | (Hne & Hlf & ->)].
  - rewrite sub_field_full_line by done. f_equal.
    apply (IH (length rest)); [|done].
    destruct Hfull as (body & -> & _). rewrite Hs, !length_app. simpl. lia.
  - rewrite app_nil_r. destruct (sub_field_last_line line Hlf) as [-> ->].
    by rewrite app_nil_r.
Qed.

End SubField.

Lemma lines_shape (s : str) : Forall (λ l, full_line l ∨ LF ∉ l) (lines s).
Proof.
  induction s as [|c s IH]; [constructor|]. simpl.
  destruct (N.eqb_spec c LF) as [->|Hc].
  - constructor; [|done]. left. exists []. split; [done | apply not_elem_of_nil].
  - destruct (lines s) as [|l ls].
    + constructor; [|done]. right. by intros ?%list_elem_of_singleton.
    + apply Forall_cons in IH as [Hl Hls]. constructor; [|done].
      destruct Hl as [(body & -> & Hb) | Hl].
      * left. exists (c :: body). split; [done | by apply not_elem_of_cons].
      * right. by apply not_elem_of_cons.
Qed.

Lemma lines_nil (s : str) : lines s = [] → s = [].
Proof. intros H. by rewrite <- (concat_lines s), H. Qed.

Lemma lines_app_lf (a b : str) : lines ((a ++ [LF]) ++ b) = lines (a ++ [LF]) ++ lines b.
Proof.
  induction a as [|c a IH]; [done|]. simpl.
  destruct (c =? LF); [by rewrite IH|]. rewrite IH.
  destruct (lines (a ++ [LF])) as [|l ls] eqn:E; [|done].
  apply lines_nil in E. by destruct a.
Qed.

Lemma lines_app (a b : str) :
  a = [] ∨ (∃ a', a = a' ++ [LF]) → lines (a ++ b) = lines a ++ lines b.
Proof. intros [->|[a' ->]]; [done | apply lines_app_lf]. Qed.

Lemma lines_full_line (l : str) : full_line l → lines l = [l].
Proof.
  intros (body & -> & Hb). induction body as [|c body IH]; [done|].
  apply not_elem_of_cons in Hb as [Hc Hb]. simpl.
  destruct (N.eqb_spec c LF) as [|_]; [done|]. by rewrite IH.
Qed.

Section FieldLines.

Context (tag : str) (repl : str → str).
Hypothesis tag_nonempty : tag ≠ [].
Hypothesis tag_no_lf : LF ∉ tag.

Lemma rewrite_line_field (g : str) :
  g ≠ [] → LF ∉ g → rewrite_line tag repl (tag ++ g ++ py "\r\n") = repl g.
Proof.
  intros Hg Hlf. unfold rewrite_line.
  replace (match_field tag (tag ++ g ++ py "\r\n")) with (Some g); [done|].
  symmetry. apply match_field_spec. split_and!; [done | done |]. by exists [].
Qed.

Lemma rewrite_line_other (line : str) :
  full_line line ∨ LF ∉ line → ¬ field_line tag line → rewrite_line tag repl line = line.
Proof using tag_no_lf.
  intros Hshape Hnot. unfold rewrite_line.
  destruct (match_field tag line) as [g|] eqn:E; [|done]. destruct Hnot.
  destruct Hshape as [Hfull|Hlf].
  - apply match_field_full_line in E as [Hg ->]; [|done|done]. by exists g.
  - by rewrite match_field_no_lf in E.
Qed.

Lemma field_line_no_lf (line g : str) :
  full_line line ∨ LF ∉ line → line = tag ++ g ++ py "\r\n" → LF ∉ g.
Proof.
  intros [(body & -> & Hb) | Hlf] Hg.
  - assert (body ++ [LF] = (tag ++ g ++ [CR]) ++ [LF]) as Hs.
    { rewrite <- !app_assoc. exact Hg. }
    apply app_inj_tail in Hs as [-> _]. intros H. apply Hb.
    rewrite !elem_of_app. auto.
  - destruct Hlf. rewrite Hg, !elem_of_app. right. right.
    apply list_elem_of_further, list_elem_of_here.
Qed.

Lemma rewrite_lines_other (ls : list str) :
  Forall (λ l, full_line l ∨ LF ∉ l) ls →
  Forall (λ l, ¬ field_line tag l) ls →
  map (rewrite_line tag repl) ls = ls.
Proof using tag_no_lf.
  induction 1 as [|l ls Hl _ IH]; intros Hnot; [done|].
  apply Forall_cons in Hnot as [Hn Hnot]. simpl.
  by rewrite rewrite_line_other, IH.
Qed.

End FieldLines.

Lemma uid_tag : py "UID:" ≠ [] ∧ LF ∉ py "UID:".
Proof.
  split; [done|]. change (py "UID:") with [85; 73; 68; 58].
  rewrite !not_elem_of_cons. split_and!; try done. apply not_elem_of_nil.
Qed.

Lemma summary_tag : py "SUMMARY:" ≠ [] ∧ LF ∉ py "SUMMARY:".
Proof.
  split; [done|]. change (py "SUMMARY:") with [83; 85; 77; 77; 65; 82; 89; 58].
  rewrite !not_elem_of_cons. split_and!; try done. apply not_elem_of_nil.
Qed.

Lemma prefix_uid_lines (hash : str → Z) (ev prefix : str) :
  str_in (py "UID:") ev = true →
  prefix_uid hash ev prefix
  = concat (map (rewrite_line (py "UID:") (uid_repl prefix)) (lines ev)).
Proof.
  intros H. unfold prefix_uid. rewrite H.
  apply sub_field_lines; apply uid_tag.
Qed.

Lemma annotate_summary_lines (team_name ev : str) :
  annotate_summary team_name ev
  = concat (map (rewrite_line (py "SUMMARY:") (summary_repl team_name)) (lines ev)).
Proof. apply sub_field_lines; apply summary_tag. Qed.

(** C3, as the code has it: both substitutions rewrite every line that is a
    field line of their tag (the tag at the start of the line, at least one
    character, CR LF) and leave every other line as it is.  The record is
    the concatenation of its lines, and the rewritten record the concatenation
    of the rewritten lines. *)
Theorem rewrites_every_field_line (hash : str → Z) (ev prefix team_name : str) :
  concat (lines ev) = ev
  ∧ (str_in (py "UID:") ev = true →
     prefix_uid hash ev prefix
     = concat (map (rewrite_line (py "UID:") (uid_repl prefix)) (lines ev)))
  ∧ annotate_summary team_name ev
    = concat (map (rewrite_line (py "SUMMARY:") (summary_repl team_name)) (lines ev))
  ∧ (∀ line, line ∈ lines ev →
       (∀ g, g ≠ [] → line = py "UID:" ++ g ++ py "\r\n" →
          rewrite_line (py "UID:") (uid_repl prefix) line
          = py "UID:" ++ prefix ++ py "-" ++ g ++ py "\r\n")
       ∧ (¬ field_line (py "UID:") line →
          rewrite_line (py "UID:") (uid_repl prefix) line = line)
       ∧ (∀ g, g ≠ [] → line = py "SUMMARY:" ++ g ++ py "\r\n" →
          rewrite_line (py "SUMMARY:") (summary_repl team_name) line
          = py "SUMMARY:" ++ g ++ py " [" ++ team_name ++ py "]\r\n")
       ∧ (¬ field_line (py "SUMMARY:") line →
          rewrite_line (py "SUMMARY:") (summary_repl team_name) line = line)).
Proof.
  split_and!.
  - apply concat_lines.
  - apply prefix_uid_lines.
  - apply annotate_summary_lines.
  - intros line Hin.
    pose proof (proj1 (Forall_forall _ _) (lines_shape ev) line Hin) as Hshape.
    split_and!.
    + intros g Hg ->. rewrite rewrite_line_field; [done | done |].
      by apply (field_line_no_lf (py "UID:") _ g Hshape).
    + apply rewrite_line_other; [apply uid_tag | done].
    + intros g Hg ->. rewrite rewrite_line_field; [done | done |].
      by apply (field_line_no_lf (py "SUMMARY:") _ g Hshape).
    + apply rewrite_line_other; [apply summary_tag | done].
Qed.

(** C3, as the specification words it, fails: in a record with two UID
    lines and two SUMMARY lines the second lines are rewritten as well. *)
Lemma first_line_only_counterexample :
  transform (λ _, 0%Z) (py "liga1-team2") (py "T")
    (py "BEGIN:VEVENT\r\nUID:1\r\nUID:2\r\nSUMMARY:a\r\nSUMMARY:b\r\nEND:VEVENT\r\n")
  = py "BEGIN:VEVENT\r\nUID:liga1-team2-1\r\nUID:liga1-team2-2\r\nSUMMARY:a [T]\r\nSUMMARY:b [T]\r\nEND:VEVENT\r\n"
  ∧ ¬ first_line_only.
Proof.
  split; [by vm_compute|].
  intros H.
  destruct (H (λ _, 0%Z) (py "UID:1\r\nUID:2\r\n") (py "p") (py "T")) as [H1 _].
  specialize (H1 eq_refl). vm_compute in H1. discriminate H1.
Qed.

Lemma field_line_startswith (tag line : str) :
  field_line tag line → startswith tag line = true.
Proof. intros (g & _ & ->). apply startswith_app. Qed.

(** A test that discharges "no line of the text is a field line". *)
Lemma no_field_line_test (tag s : str) :
  forallb (λ l, negb (startswith tag l)) (lines s) = true →
  ∀ line, line ∈ lines s → ¬ field_line tag line.
Proof.
  intros Hall line Hin Hf%field_line_startswith.
  rewrite forallb_forall in Hall. apply list_elem_of_In, Hall in Hin.
  by rewrite Hf in Hin.
Qed.

Lemma rewrite_lines_unchanged (tag : str) (repl : str → str) (s : str) :
  LF ∉ tag →
  (∀ line, line ∈ lines s → ¬ field_line tag line) →
  concat (map (rewrite_line tag repl) (lines s)) = s.
Proof.
  intros Htag Hnot. rewrite rewrite_lines_other; [apply concat_lines | done | |].
  - apply lines_shape.
  - by apply Forall_forall.
Qed.

(** C5, as the code has it: in a record with the line [UID:12345] in which
    no other line is a UID field line, the prefix [liga51127-team425276] turns
    that line into [UID:liga51127-team425276-12345] and every other line stays
    as it is.  [before] and [after] are the lines before and after the UID
    line. *)
Theorem prefix_uid_rewrites_uid_line (hash : str → Z) (before after : str) :
  before = [] ∨ (∃ b, before = b ++ [LF]) →
  (∀ line, line ∈ lines before → ¬ field_line (py "UID:") line) →
  (∀ line, line ∈ lines after → ¬ field_line (py "UID:") line) →
  prefix_uid hash (before ++ py "UID:12345\r\n" ++ after) (py "liga51127-team425276")
  = before ++ py "UID:liga51127-team425276-12345\r\n" ++ after.
Proof.
  intros Hstart Hbefore Hafter.
  rewrite prefix_uid_lines.
  2:{ apply str_in_spec. by exists before, (py "12345\r\n" ++ after). }
  rewrite lines_app by done.
  change (py "UID:12345\r\n") with (py "UID:12345\r" ++ [LF]).
  rewrite lines_app_lf, !map_app, !concat_app.
  rewrite (rewrite_lines_unchanged _ _ before), (rewrite_lines_unchanged _ _ after)
    by (done || apply uid_tag).
  f_equal.
Qed.

Lemma prefix_uid_rewrites_uid_line_witness :
  prefix_uid (λ _, 0%Z)
    (py "BEGIN:VEVENT\r\nDTSTART:20240101T180000\r\nUID:12345\r\nSUMMARY:Heimspiel\r\nEND:VEVENT\r\n")
    (py "liga51127-team425276")
  = py "BEGIN:VEVENT\r\nDTSTART:20240101T180000\r\nUID:liga51127-team425276-12345\r\nSUMMARY:Heimspiel\r\nEND:VEVENT\r\n".
Proof.
  apply (prefix_uid_rewrites_uid_line (λ _, 0%Z)
           (py "BEGIN:VEVENT\r\nDTSTART:20240101T180000\r\n")
           (py "SUMMARY:Heimspiel\r\nEND:VEVENT\r\n")).
  - right. by exists (py "BEGIN:VEVENT\r\nDTSTART:20240101T180000\r").
  - apply no_field_line_test. vm_compute. reflexivity.
  - apply no_field_line_test. vm_compute. reflexivity.
Defined.

(** C5, as the specification words it, fails: a second UID field line of
    the record is rewritten as well, so that another line than [UID:12345]
    changes. *)
Lemma only_uid_line_rewritten_counterexample :
  prefix_uid (λ _, 0%Z) (py "BEGIN:VEVENT\r\nUID:12345\r\nUID:777\r\nEND:VEVENT\r\n")
    (py "liga51127-team425276")
  = py "BEGIN:VEVENT\r\nUID:liga51127-team425276-12345\r\nUID:liga51127-team425276-777\r\nEND:VEVENT\r\n"
  ∧ ¬ only_uid_line_rewritten.
Proof.
  split; [vm_compute; reflexivity|].
  intros H.
  specialize (H (λ _, 0%Z) (py "BEGIN:VEVENT\r\n") (py "UID:777\r\nEND:VEVENT\r\n")).
  assert (py "BEGIN:VEVENT\r\n" = [] ∨ (∃ b, py "BEGIN:VEVENT\r\n" = b ++ [LF])) as Hstart
    by (right; by exists (py "BEGIN:VEVENT\r")).
  specialize (H Hstart). vm_compute in H. discriminate H.
Qed.

(** C10: a record in which [UID:] occurs, but in which no line is a UID
    field line (UID: at the start of the line, at least one character, CR LF),
    is returned as it is: nothing is prefixed and no UID is synthesized. *)
Theorem prefix_uid_unmatched_unchanged (hash : str → Z) (ev prefix : str) :
  substring (py "UID:") ev →
  (∀ line, line ∈ lines ev → ¬ field_line (py "UID:") line) →
  prefix_uid hash ev prefix = ev.
Proof.
  intros Hin Hnot. rewrite prefix_uid_lines by by apply str_in_spec.
  apply rewrite_lines_unchanged; [apply uid_tag | done].
Qed.

Lemma prefix_uid_unmatched_unchanged_witness :
  prefix_uid (λ _, 0%Z)
    (py "BEGIN:VEVENT\r\nDTSTART:20240101T180000\r\nDESCRIPTION:see UID:77\r\nEND:VEVENT\r\n")
    (py "liga51127-team425276")
  = py "BEGIN:VEVENT\r\nDTSTART:20240101T180000\r\nDESCRIPTION:see UID:77\r\nEND:VEVENT\r\n".
Proof.
  apply (prefix_uid_unmatched_unchanged (λ _, 0%Z)).
  - by exists (py "BEGIN:VEVENT\r\nDTSTART:20240101T180000\r\nDESCRIPTION:see "),
      (py "77\r\nEND:VEVENT\r\n").
  - apply no_field_line_test. vm_compute. reflexivity.
Defined.

(** ** UID synthesis *)

Lemma andb_prop_intro_helper (c d : N) :
  ((c =? CR) && (d =? LF) = true ∧ c = CR ∧ d = LF) ∨ (c =? CR) && (d =? LF) = false.
Proof.
  destruct (N.eqb_spec c CR) as [->|], (N.eqb_spec d LF) as [->|]; simpl; auto.
Qed.

Lemma split_crlf_from_cons2 (cur : str) (c d : N) (s : str) :
  split_crlf_from cur (c :: d :: s)
  = if (c =? CR) && (d =? LF) then cur :: split_crlf_from [] s
    else split_crlf_from (cur ++ [c]) (d :: s).
Proof. done. Qed.

Lemma split_crlf_from_nonempty (cur s : str) : split_crlf_from cur s ≠ [].
Proof.
  remember (length s) as n eqn:Hn. revert cur s Hn.
  induction n as [n IH] using lt_wf_ind. intros cur s ->.
  destruct s as [|c [|d s]]; [done | done |].
  rewrite split_crlf_from_cons2.
  destruct ((c =? CR) && (d =? LF)); [done|].
  apply (IH (length (d :: s))); simpl; [lia | done].
Qed.

Lemma join_cons (sep p : str) (rest : list str) :
  rest ≠ [] → join sep (p :: rest) = p ++ sep ++ join sep rest.
Proof. by destruct rest. Qed.

Lemma join_split_crlf_from (cur s : str) :
  join (py "\r\n") (split_crlf_from cur s) = cur ++ s.
Proof.
  remember (length s) as n eqn:Hn. revert cur s Hn.
  induction n as [n IH] using lt_wf_ind. intros cur s ->.
  destruct s as [|c [|d s]]; [by rewrite app_nil_r | done |].
  rewrite split_crlf_from_cons2.
  destruct (andb_prop_intro_helper c d) as [[E [-> ->]] | E]; rewrite E.
  - rewrite join_cons by apply split_crlf_from_nonempty.
    rewrite (IH (length s)); simpl; [done | lia | done].
  - rewrite (IH (length (d :: s))); simpl; [|lia|done].
    by rewrite <- app_assoc.
Qed.

Lemma join_split_crlf (s : str) : join (py "\r\n") (split_crlf s) = s.
Proof. apply join_split_crlf_from. Qed.

Lemma substring_join (sep l : str) (ls : list str) : l ∈ ls → substring l (join sep ls).
Proof.
  induction ls as [|p ls IH]; [by intros ?%elem_of_nil|].
  intros [->|Hin]%elem_of_cons.
  - destruct ls as [|q ls]; simpl.
    + exists [], []. by rewrite app_nil_r.
    + by exists [], (sep ++ join sep (q :: ls)).
  - destruct ls as [|q ls]; [by apply elem_of_nil in Hin|].
    destruct (IH Hin) as (pre & post & E). rewrite join_cons by done.
    exists (p ++ sep ++ pre), post. rewrite E. by rewrite <- !app_assoc.
Qed.

Lemma substring_startswith (tag l hay : str) :
  startswith tag l = true → substring l hay → substring tag hay.
Proof.
  intros [r ->]%startswith_spec (pre & post & ->).
  exists pre, (r ++ post). by rewrite <- !app_assoc.
Qed.

(** No line of a record without [UID:] starts with [UID:]. *)
Lemma split_crlf_no_uid (ev : str) :
  str_in (py "UID:") ev = false →
  Forall (λ l, startswith (py "UID:") l = false) (split_crlf ev).
Proof.
  intros Hno. apply Forall_forall. intros l Hl.
  destruct (startswith (py "UID:") l) eqn:E; [|done].
  assert (str_in (py "UID:") ev = true) as H; [|congruence].
  apply str_in_spec. apply (substring_startswith _ l); [done|].
  rewrite <- (join_split_crlf ev) at 1. by apply substring_join.
Qed.

Section InsertUid.

Context (uid : str).

Lemma insert_uid_step_true (out : list str) (line : str) :
  insert_uid_step uid (out, true) line = (out ++ [line], true).
Proof. done. Qed.

Lemma insert_uid_step_false (out : list str) (line : str) :
  insert_uid_step uid (out, false) line
  = if startswith (py "DTSTART") line
    then ((out ++ [line]) ++ [py "UID:" ++ uid], true)
    else (out ++ [line], false).
Proof. done. Qed.

Lemma insert_uid_done (ls out : list str) :
  fold_left (insert_uid_step uid) ls (out, true) = (out ++ ls, true).
Proof.
  revert out. induction ls as [|l ls IH]; intros out; cbn [fold_left].
  - by rewrite app_nil_r.
  - rewrite insert_uid_step_true, IH. by rewrite <- app_assoc.
Qed.

Lemma insert_uid_first (l1 l2 : list str) (d : str) (out : list str) :
  Forall (λ l, startswith (py "DTSTART") l = false) l1 →
  startswith (py "DTSTART") d = true →
  fold_left (insert_uid_step uid) (l1 ++ d :: l2) (out, false)
  = (out ++ l1 ++ d :: (py "UID:" ++ uid) :: l2, true).
Proof.
  intros Hl1 Hd. revert out.
  induction Hl1 as [|l l1 Hl _ IH]; intros out; simpl app; cbn [fold_left];
    rewrite insert_uid_step_false.
  - rewrite Hd, insert_uid_done. by rewrite <- !app_assoc.
  - rewrite Hl, IH. by rewrite <- app_assoc.
Qed.

End InsertUid.




(** ** Text normalizer *)

Section Whitespace.

Context (U : unicode).
Hypothesis space_is_space : isspace U (ch " ") = true.

Lemma sub_ws_cons (b : bool) (c : N) (s : str) :
  sub_ws U b (c :: s)
  = if isspace U c then (if b then sub_ws U true s else ch " " :: sub_ws U true s)
    else c :: sub_ws U false s.
Proof. done. Qed.

Lemma lstrip_cons (c : N) (s : str) :
  lstrip U (c :: s) = if isspace U c then lstrip U s else c :: s.
Proof. done. Qed.

Lemma sub_ws_sub_ws (b b' : bool) (s : str) :
  sub_ws U b' (sub_ws U b s) = sub_ws U (b || b') s.
Proof using space_is_space.
  revert b b'. induction s as [|c s IH]; intros b b'; [done|].
  rewrite !sub_ws_cons. destruct (isspace U c) eqn:Ec.
  - destruct b; cbn [orb].
    + by rewrite IH.
    + rewrite sub_ws_cons, space_is_space, IH. by destruct b'.
  - by rewrite sub_ws_cons, Ec, IH.
Qed.

Lemma lstrip_sub_ws_true (s : str) : lstrip U (sub_ws U true s) = sub_ws U true s.
Proof.
  induction s as [|c s IH]; [done|]. rewrite sub_ws_cons.
  destruct (isspace U c) eqn:Ec; [done|]. by rewrite lstrip_cons, Ec.
Qed.

Lemma lstrip_sub_ws (s : str) : lstrip U (sub_ws U false s) = sub_ws U true s.
Proof using space_is_space.
  destruct s as [|c s]; [done|]. rewrite !sub_ws_cons.
  destruct (isspace U c) eqn:Ec.
  - by rewrite lstrip_cons, space_is_space, lstrip_sub_ws_true.
  - by rewrite lstrip_cons, Ec.
Qed.

Lemma lstrip_lstrip (s : str) : lstrip U (lstrip U s) = lstrip U s.
Proof.
  induction s as [|c s IH]; [done|]. rewrite lstrip_cons.
  destruct (isspace U c) eqn:Ec; [done|]. by rewrite lstrip_cons, Ec.
Qed.

Lemma lstrip_app (x y : str) :
  lstrip U (x ++ y) = match lstrip U x with [] => lstrip U y | _ :: _ => lstrip U x ++ y end.
Proof.
  induction x as [|c x IH]; [done|]. simpl app. rewrite !lstrip_cons.
  by destruct (isspace U c).
Qed.

Lemma lstrip_spaces (s : str) : Forall (λ c, isspace U c = true) s → lstrip U s = [].
Proof. induction 1 as [|c s Hc _ IH]; [done|]. by rewrite lstrip_cons, Hc. Qed.

Lemma lstrip_nil_inv (s : str) : lstrip U s = [] → Forall (λ c, isspace U c = true) s.
Proof.
  induction s as [|c s IH]; [constructor|]. rewrite lstrip_cons.
  destruct (isspace U c) eqn:Ec; [|done]. constructor; auto.
Qed.

Lemma rstrip_cons (c : N) (s : str) :
  rstrip U (c :: s)
  = match rstrip U s with
    | [] => if isspace U c then [] else [c]
    | _ :: _ => c :: rstrip U s
    end.
Proof.
  unfold rstrip. rewrite reverse_cons, lstrip_app.
  destruct (lstrip U (reverse s)) as [|d l]; simpl.
  - destruct (isspace U c); done.
  - change (d :: l ++ [c]) with ((d :: l) ++ [c]). rewrite reverse_app.
    destruct (reverse (d :: l)) eqn:E; [|done].
    apply (f_equal reverse) in E. by rewrite reverse_involutive in E.
Qed.

Lemma rstrip_rstrip (s : str) : rstrip U (rstrip U s) = rstrip U s.
Proof. unfold rstrip. by rewrite reverse_involutive, lstrip_lstrip. Qed.

Lemma rstrip_spaces (s : str) : Forall (λ c, isspace U c = true) s → rstrip U s = [].
Proof.
  intros H. unfold rstrip. rewrite lstrip_spaces; [done|].
  by apply Forall_reverse.
Qed.

Lemma rstrip_nil_inv (s : str) : rstrip U s = [] → Forall (λ c, isspace U c = true) s.
Proof.
  unfold rstrip. intros H. apply (f_equal reverse) in H.
  rewrite reverse_involutive in H. simpl in H.
  apply lstrip_nil_inv in H. rewrite <- (reverse_involutive s). by apply Forall_reverse.
Qed.

Lemma Forall_rstrip (P : N → Prop) (s : str) : Forall P s → Forall P (rstrip U s).
Proof.
  induction 1 as [|c s Hc Hs IH]; [done|]. rewrite rstrip_cons.
  destruct (rstrip U s); [destruct (isspace U c)|]; auto.
Qed.

Lemma Forall_sub_ws (P : N → Prop) (b : bool) (s : str) :
  P (ch " ") → Forall P s → Forall P (sub_ws U b s).
Proof.
  intros Hsp Hs. revert b. induction Hs as [|c s Hc Hs IH]; intros b; [done|].
  rewrite sub_ws_cons. destruct (isspace U c), b; auto.
Qed.

Lemma sub_ws_nil_inv (b : bool) (s : str) :
  sub_ws U b s = [] → Forall (λ c, isspace U c = true) s.
Proof.
  revert b. induction s as [|c s IH]; intros b; [constructor|].
  rewrite sub_ws_cons. destruct (isspace U c) eqn:Ec; [|done].
  destruct b; [|done]. intros H. constructor; eauto.
Qed.

Lemma rstrip_sub_ws (b : bool) (s : str) :
  rstrip U (sub_ws U b s) = sub_ws U b (rstrip U s).
Proof using space_is_space.
  revert b. induction s as [|c s IH]; intros b; [done|].
  rewrite sub_ws_cons, (rstrip_cons c s).
  destruct (isspace U c) eqn:Ec.
  - destruct (rstrip U s) as [|d r] eqn:Er.
    + destruct b; [by rewrite IH|].
      by rewrite rstrip_cons, IH, space_is_space.
    + rewrite sub_ws_cons, Ec. destruct b; [by rewrite IH|].
      rewrite rstrip_cons, IH.
      destruct (sub_ws U true (d :: r)) eqn:E; [|done].
      apply sub_ws_nil_inv, rstrip_spaces in E.
      by rewrite <- Er, rstrip_rstrip, Er in E.
  - rewrite rstrip_cons, IH.
    destruct (rstrip U s) as [|d r] eqn:Er.
    + by rewrite sub_ws_cons, Ec.
    + rewrite (sub_ws_cons b c), Ec.
      by destruct (sub_ws U false (d :: r)).
Qed.

(** Collapsing the whitespace and stripping the ends, in one pass. *)
Lemma strip_sub_ws (s : str) :
  strip U (sub_ws U false s) = sub_ws U true (rstrip U s).
Proof using space_is_space.
  unfold strip. by rewrite lstrip_sub_ws, rstrip_sub_ws.
Qed.

Lemma strip_sub_ws_idempotent (s : str) :
  strip U (sub_ws U false (strip U (sub_ws U false s))) = strip U (sub_ws U false s).
Proof using space_is_space.
  by rewrite !strip_sub_ws, rstrip_sub_ws, rstrip_rstrip, sub_ws_sub_ws.
Qed.

End Whitespace.

Section CharMap.

Context (U : unicode) (g : N → str) (A : N → Prop).
Hypothesis space_is_space : isspace U (ch " ") = true.
Hypothesis g_space : g (ch " ") = [ch " "].
Hypothesis g_nonempty : ∀ c, A c → g c ≠ [].
Hypothesis g_isspace : ∀ c c', A c → c' ∈ g c → isspace U c' = isspace U c.

Lemma sub_ws_app_word (u x : str) :
  Forall (λ c, isspace U c = false) u →
  sub_ws U false (u ++ x) = u ++ sub_ws U false x.
Proof.
  induction 1 as [|c u Hc _ IH]; [done|]. simpl app.
  by rewrite sub_ws_cons, Hc, IH.
Qed.

Lemma sub_ws_word (b : bool) (u x : str) :
  u ≠ [] → Forall (λ c, isspace U c = false) u →
  sub_ws U b (u ++ x) = u ++ sub_ws U false x.
Proof.
  intros Hu H. destruct H as [|c u Hc H]; [done|]. simpl app.
  by rewrite sub_ws_cons, Hc, sub_ws_app_word.
Qed.

Lemma sub_ws_app_spaces (u x : str) :
  Forall (λ c, isspace U c = true) u → sub_ws U true (u ++ x) = sub_ws U true x.
Proof.
  induction 1 as [|c u Hc _ IH]; [done|]. simpl app.
  by rewrite sub_ws_cons, Hc, IH.
Qed.

Lemma sub_ws_spaces (b : bool) (u x : str) :
  u ≠ [] → Forall (λ c, isspace U c = true) u →
  sub_ws U b (u ++ x) = if b then sub_ws U true x else ch " " :: sub_ws U true x.
Proof.
  intros Hu H. destruct H as [|c u Hc H]; [done|]. simpl app.
  by rewrite sub_ws_cons, Hc, sub_ws_app_spaces.
Qed.

Lemma g_image (c : N) (b : bool) :
  A c → isspace U c = b → Forall (λ c', isspace U c' = b) (g c).
Proof using g_isspace.
  intros Hc <-. apply Forall_forall. intros c' Hc'. by apply g_isspace.
Qed.

Lemma sub_ws_flat_map (b : bool) (y : str) :
  Forall A y → sub_ws U b (flat_map g y) = flat_map g (sub_ws U b y).
Proof using space_is_space g_space g_nonempty g_isspace.
  intros Hy. revert b. induction Hy as [|c y Hc _ IH]; intros b; [done|].
  rewrite sub_ws_cons. cbn [flat_map]. destruct (isspace U c) eqn:Ec.
  - rewrite sub_ws_spaces by auto using g_image.
    destruct b; rewrite IH; [done|]. cbn [flat_map]. by rewrite g_space.
  - rewrite sub_ws_word by auto using g_image. cbn [flat_map]. by rewrite IH.
Qed.

Lemma rstrip_app_word (u x : str) :
  Forall (λ c, isspace U c = false) u → rstrip U (u ++ x) = u ++ rstrip U x.
Proof.
  induction 1 as [|c u Hc _ IH]; [done|]. simpl app.
  rewrite rstrip_cons, Hc, IH. by destruct (u ++ rstrip U x).
Qed.

Lemma rstrip_app_spaces (u x : str) :
  Forall (λ c, isspace U c = true) u →
  rstrip U (u ++ x) = match rstrip U x with [] => [] | _ :: _ => u ++ rstrip U x end.
Proof.
  induction 1 as [|c u Hc _ IH]; [simpl app; by destruct (rstrip U x)|]. simpl app.
  rewrite rstrip_cons, Hc, IH. destruct (rstrip U x) as [|d r]; [done|].
  destruct (u ++ d :: r) eqn:E; [|done]. by destruct u.
Qed.

Lemma flat_map_nil_inv (y : str) : Forall A y → flat_map g y = [] → y = [].
Proof using g_nonempty.
  intros [|c y' Hc _]; [done|]. simpl. intros [H _]%app_eq_nil. by apply g_nonempty in H.
Qed.

Lemma rstrip_flat_map (y : str) :
  Forall A y → rstrip U (flat_map g y) = flat_map g (rstrip U y).
Proof using g_nonempty g_isspace.
  induction 1 as [|c y Hc Hy IH]; [done|].
  rewrite (rstrip_cons U c y). cbn [flat_map]. destruct (isspace U c) eqn:Ec.
  - rewrite rstrip_app_spaces, IH by auto using g_image.
    destruct (rstrip U y) as [|d r] eqn:Er; [reflexivity|].
    change (flat_map g (c :: d :: r)) with (g c ++ flat_map g (d :: r)).
    destruct (flat_map g (d :: r)) eqn:E; [|reflexivity].
    apply flat_map_nil_inv in E; [done|]. rewrite <- Er. by apply Forall_rstrip.
  - rewrite rstrip_app_word, IH by auto using g_image.
    destruct (rstrip U y); reflexivity.
Qed.

Lemma strip_sub_ws_flat_map (y : str) :
  Forall A y →
  strip U (sub_ws U false (flat_map g y)) = flat_map g (strip U (sub_ws U false y)).
Proof using space_is_space g_space g_nonempty g_isspace.
  intros Hy. rewrite !strip_sub_ws by done.
  rewrite rstrip_flat_map, sub_ws_flat_map; [done | | done].
  by apply Forall_rstrip.
Qed.

Lemma flat_map_fixed (u : str) : Forall (λ c, g c = [c]) u → flat_map g u = u.
Proof. induction 1 as [|c u Hc _ IH]; [done|]. simpl. by rewrite Hc, IH. Qed.

Lemma flat_map_stable (y : str) :
  Forall (λ c, Forall (λ c', g c' = [c']) (g c)) y →
  flat_map g (flat_map g y) = flat_map g y.
Proof.
  induction 1 as [|c y Hc _ IH]; [done|]. simpl.
  by rewrite flat_map_app, IH, flat_map_fixed.
Qed.

End CharMap.

Lemma unescape_no_amp (s : str) : ch "&" ∉ s → PyLib.unescape s = s.
Proof.
  intros Hs. unfold PyLib.unescape.
  destruct (existsb (λ c, c =? ch "&") s) eqn:E; [|done].
  apply existsb_exists in E as (c & Hc%list_elem_of_In & ->%N.eqb_eq). done.
Qed.

Lemma casefold_filter_nfkd (w : str) :
  PyLib.casefold (List.filter (λ c, PyLib.combining c =? 0) (PyLib.nfkd w))
  = flat_map norm_char w.
Proof.
  unfold PyLib.casefold, PyLib.nfkd. induction w as [|c w IH]; [done|].
  cbn [flat_map]. rewrite List.filter_app, flat_map_app, IH. f_equal.
  unfold norm_char, PyLib.casefold, PyLib.nfkd. cbn [flat_map]. by rewrite app_nil_r.
Qed.

(** Without character reference, [norm] collapses and strips the whitespace
    and then maps every character to its image. *)
Lemma norm_no_amp (s : str) :
  ch "&" ∉ s →
  norm PyLib.lib s = flat_map norm_char (strip PyLib.lib (sub_ws PyLib.lib false s)).
Proof.
  intros Hs. unfold norm. cbn [unescape nfkd combining casefold PyLib.lib].
  by rewrite unescape_no_amp, casefold_filter_nfkd.
Qed.

Lemma latin1_enumerated (c : N) : c < 256 → c ∈ map N.of_nat (seq 0 256).
Proof.
  intros Hc. apply list_elem_of_In, in_map_iff. exists (N.to_nat c). split.
  - apply N2Nat.id.
  - apply in_seq. lia.
Qed.

Lemma stable_latin1_test_all (c : N) : stable_latin1_test c = true.
Proof.
  destruct (N.ltb_spec c 256) as [Hc|Hc].
  - assert (forallb stable_latin1_test (map N.of_nat (seq 0 256)) = true) as Hall
      by (vm_compute; reflexivity).
    rewrite forallb_forall in Hall. apply Hall, list_elem_of_In, latin1_enumerated, Hc.
  - unfold stable_latin1_test, stable_latin1.
    assert ((c <? 256) = false) as -> by by apply N.ltb_ge. done.
Qed.

(** In the model of the library, the code points below 256 other than the
    four spacing accents are stable. *)
Lemma stable_latin1_stable (c : N) : stable_latin1 c = true → stable_char PyLib.lib c.
Proof.
  intros Hc. pose proof (stable_latin1_test_all c) as H.
  unfold stable_latin1_test in H. rewrite Hc in H. simpl in H.
  apply andb_true_iff in H as [H1 H2]. rewrite forallb_forall in H2. split.
  - change (char_image PyLib.lib c) with (norm_char c). intros E. by rewrite E in H1.
  - intros c' Hc'%list_elem_of_In. apply H2, andb_true_iff in Hc' as [H3 H4]. split.
    + by apply Bool.eqb_prop.
    + by apply str_eqb_eq.
Qed.

Lemma PyLib_laws : library_laws PyLib.lib.
Proof. split; [done | done | exact casefold_filter_nfkd]. Qed.

(** C2, as the code has it: [norm] is idempotent on every string whose
    normal form holds no character reference left to decode and whose
    characters, after the decoding, are stable under the last three steps
    (NFKD, removal of the combining marks, case folding), for a library in
    which the space is whitespace and its own image and these steps work
    character by character. *)
Theorem norm_idempotent_stable (U : unicode) (s : str) :
  library_laws U →
  unescape U (norm U s) = norm U s →
  Forall (stable_char U) (unescape U s) →
  norm U (norm U s) = norm U s.
Proof.
  intros [Hsp Himg Hcw] Hdec Hstable.
  set (w := strip U (sub_ws U false (unescape U s))).
  assert (norm U s = flat_map (char_image U) w) as Hnorm by apply Hcw.
  assert (stable_char U (ch " ")) as Hspace.
  { split; [by rewrite Himg|]. intros c'. rewrite Himg.
    by intros ->%list_elem_of_singleton. }
  assert (Forall (stable_char U) w) as Hw.
  { unfold w, strip. apply Forall_rstrip. rewrite lstrip_sub_ws by done.
    by apply Forall_sub_ws. }
  change (norm U (norm U s))
    with (nfkd_fold U (strip U (sub_ws U false (unescape U (norm U s))))).
  rewrite Hdec, Hnorm.
  rewrite (strip_sub_ws_flat_map U (char_image U) (stable_char U)); try done.
  - unfold w. rewrite strip_sub_ws_idempotent by done. fold w.
    rewrite Hcw. apply flat_map_stable. eapply Forall_impl; [exact Hw|].
    intros c [_ Hc]. apply Forall_forall. intros c' Hc'. by apply Hc.
  - by intros c [Hc _].
  - intros c c' [_ Hc] Hc'. by apply Hc.
Qed.

Lemma norm_idempotent_stable_witness :
  norm PyLib.lib (norm PyLib.lib (py "  TG \t Veitsh&ouml;chheim &amp; Co\xa0\r\n"))
  = norm PyLib.lib (py "  TG \t Veitsh&ouml;chheim &amp; Co\xa0\r\n")
  ∧ norm PyLib.lib (py "  TG \t Veitsh&ouml;chheim &amp; Co\xa0\r\n")
    = py "tg veitshochheim & co".
Proof.
  split; [|by vm_compute].
  apply norm_idempotent_stable.
  - apply PyLib_laws.
  - vm_compute. reflexivity.
  - apply Forall_forall. intros c Hc%list_elem_of_In.
    vm_compute in Hc. intuition (subst; apply stable_latin1_stable; reflexivity).
Defined.

(** C2, as the specification words it, fails: a reference to [&] that is
    itself escaped is decoded one level at each application, and the spacing
    diaeresis U+00A8 becomes a space after the whitespace was stripped. *)
Lemma norm_idempotent_counterexample :
  norm PyLib.lib (py "&amp;amp;") = py "&amp;"
  ∧ norm PyLib.lib (norm PyLib.lib (py "&amp;amp;")) = py "&"
  ∧ norm PyLib.lib (py "a\xa8") = py "a "
  ∧ norm PyLib.lib (norm PyLib.lib (py "a\xa8")) = py "a"
  ∧ ¬ (∀ s, norm PyLib.lib (norm PyLib.lib s) = norm PyLib.lib s).
Proof.
  repeat (split; [vm_compute; reflexivity|]).
  intros H. specialize (H (py "&amp;amp;")). vm_compute in H. discriminate H.
Qed.

(** ** The UIDs of the merged output *)

Lemma full_line_app_lines (line rest : str) :
  full_line line → lines (line ++ rest) = line :: lines rest.
Proof.
  intros Hl. pose proof (lines_full_line line Hl) as E.
  destruct Hl as (body & -> & _). by rewrite lines_app_lf, E.
Qed.

Lemma lines_rewrite (tag : str) (repl : str → str) (s : str) :
  tag ≠ [] → LF ∉ tag →
  (∀ g, LF ∉ g → full_line (repl g)) →
  lines (concat (map (rewrite_line tag repl) (lines s)))
  = map (rewrite_line tag repl) (lines s).
Proof.
  intros Htag Hlf Hrepl.
  remember (length s) as n eqn:Hn. revert s Hn.
  induction n as [n IH] using lt_wf_ind. intros s ->.
  destruct s as [|c s]; [done|].
  destruct (lines_first (c :: s)) as (line & rest & Hs & Hl & Hshape); [done|].
  rewrite Hl. simpl map. simpl concat.
  destruct Hshape as [Hfull | (Hne & Hno & ->)].
  - rewrite full_line_app_lines.
    + f_equal. apply (IH (length rest)); [|done].
      destruct Hfull as (body & -> & _). rewrite Hs, !length_app. simpl. lia.
    + unfold rewrite_line. destruct (match_field tag line) as [g|] eqn:E; [|done].
      apply Hrepl. by apply match_field_spec in E as (_ & ? & _).
  - simpl. rewrite app_nil_r. unfold rewrite_line.
    rewrite match_field_no_lf by done.
    rewrite app_nil_r in Hs. subst line. exact Hl.
Qed.

Lemma omap_rewrite (m : str → option str) (rw : str → str) (f : str → str)
    (ls : list str) :
  Forall (λ l, m (rw l) = f <$> m l) ls →
  omap m (map rw ls) = map f (omap m ls).
Proof.
  induction 1 as [|l ls Hl _ IH]; [done|]. cbn.
  rewrite Hl, IH. by destruct (m l).
Qed.

Lemma no_lf_app (a b : str) : LF ∉ a → LF ∉ b → LF ∉ a ++ b.
Proof. intros Ha Hb [?|?]%elem_of_app; done. Qed.

Lemma no_lf_py_cr : LF ∉ py "\r".
Proof. by intros ?%list_elem_of_singleton. Qed.

Lemma no_lf_py_hyphen : LF ∉ py "-".
Proof. by intros ?%list_elem_of_singleton. Qed.

Lemma full_line_uid_repl (prefix g : str) :
  LF ∉ prefix → LF ∉ g → full_line (uid_repl prefix g).
Proof.
  intros Hp Hg. exists (py "UID:" ++ prefix ++ py "-" ++ g ++ py "\r"). split.
  - unfold uid_repl. by rewrite <- !app_assoc.
  - repeat apply no_lf_app; auto using no_lf_py_cr, no_lf_py_hyphen. apply uid_tag.
Qed.

Lemma full_line_summary_repl (team_name g : str) :
  LF ∉ team_name → LF ∉ g → full_line (summary_repl team_name g).
Proof.
  intros Hn Hg. exists (py "SUMMARY:" ++ g ++ py " [" ++ team_name ++ py "]\r"). split.
  - unfold summary_repl. by rewrite <- !app_assoc.
  - repeat apply no_lf_app; auto; try apply summary_tag.
    + intros H%list_elem_of_In. vm_compute in H. intuition discriminate.
    + intros H%list_elem_of_In. vm_compute in H. intuition discriminate.
Qed.

Lemma match_uid_rewritten (prefix line : str) :
  LF ∉ prefix →
  match_field (py "UID:") (rewrite_line (py "UID:") (uid_repl prefix) line)
  = (λ g, prefix ++ py "-" ++ g) <$> match_field (py "UID:") line.
Proof.
  intros Hp. unfold rewrite_line.
  destruct (match_field (py "UID:") line) as [g|] eqn:E; [|by rewrite E].
  apply match_field_spec in E as (Hg & Hlf & _). cbn [fmap option_fmap option_map].
  apply match_field_spec. split_and!.
  - by destruct prefix.
  - repeat apply no_lf_app; auto using no_lf_py_hyphen.
  - exists []. unfold uid_repl. by rewrite <- !app_assoc.
Qed.

Lemma match_uid_summary (team_name line : str) :
  match_field (py "UID:") (rewrite_line (py "SUMMARY:") (summary_repl team_name) line)
  = match_field (py "UID:") line.
Proof.
  unfold rewrite_line.
  destruct (match_field (py "SUMMARY:") line) as [g|] eqn:E; [|done].
  apply match_field_spec in E as (_ & _ & rest & ->). done.
Qed.

Lemma uid_values_prefix_uid (hash : str → Z) (ev prefix : str) :
  str_in (py "UID:") ev = true → LF ∉ prefix →
  uid_values (prefix_uid hash ev prefix)
  = map (λ g, prefix ++ py "-" ++ g) (uid_values ev).
Proof.
  intros Hin Hp. unfold uid_values. rewrite prefix_uid_lines by done.
  rewrite lines_rewrite; [| apply uid_tag | apply uid_tag | intros g Hg; by apply full_line_uid_repl].
  apply omap_rewrite, Forall_forall. intros l _. by apply match_uid_rewritten.
Qed.

Lemma uid_values_annotate_summary (team_name ev : str) :
  LF ∉ team_name → uid_values (annotate_summary team_name ev) = uid_values ev.
Proof.
  intros Hn. unfold uid_values. rewrite annotate_summary_lines.
  rewrite lines_rewrite;
    [| apply summary_tag | apply summary_tag
     | intros g Hg; by apply full_line_summary_repl].
  rewrite (omap_rewrite _ _ id).
  - by rewrite map_id.
  - apply Forall_forall. intros l _. rewrite match_uid_summary.
    by destruct (match_field (py "UID:") l).
Qed.

Lemma substring_concat (l : str) (ls : list str) : l ∈ ls → substring l (concat ls).
Proof.
  induction ls as [|p ls IH]; [by intros ?%elem_of_nil|].
  intros [->|Hin]%elem_of_cons; simpl.
  - by exists [], (concat ls).
  - destruct (IH Hin) as (pre & post & ->). exists (p ++ pre), post.
    by rewrite <- app_assoc.
Qed.

Lemma uid_values_str_in (ev u : str) : u ∈ uid_values ev → str_in (py "UID:") ev = true.
Proof.
  intros (line & Hline & E)%list_elem_of_omap.
  apply match_field_spec in E as (_ & _ & rest & ->).
  apply str_in_spec. apply substring_concat in Hline as (pre & post & Hev).
  rewrite concat_lines in Hev. exists pre, ((u ++ CR :: LF :: rest) ++ post).
  rewrite Hev. by rewrite <- !app_assoc.
Qed.

(** The UIDs of a transformed record are the UIDs of the record with the
    prefix and a hyphen before them. *)
Lemma uid_values_transform (hash : str → Z) (prefix team_name ev : str) :
  uid_values ev ≠ [] → LF ∉ prefix → LF ∉ team_name →
  uid_values (transform hash prefix team_name ev)
  = map (λ g, prefix ++ py "-" ++ g) (uid_values ev).
Proof.
  intros Hne Hp Hn. unfold transform.
  rewrite uid_values_annotate_summary by done.
  apply uid_values_prefix_uid; [|done].
  destruct (uid_values ev) as [|u us] eqn:E; [done|].
  apply (uid_values_str_in ev u). rewrite E. apply list_elem_of_here.
Qed.

Lemma first_char_unique (c : N) (a b x y : str) :
  c ∉ a → c ∉ b → a ++ c :: x = b ++ c :: y → a = b ∧ x = y.
Proof.
  revert b. induction a as [|d a IH]; intros [|e b] Ha Hb; simpl; intros H.
  - by injection H as ->.
  - injection H as <- _. destruct Hb. apply list_elem_of_here.
  - injection H as -> _. destruct Ha. apply list_elem_of_here.
  - injection H as -> H. apply not_elem_of_cons in Ha as [_ Ha], Hb as [_ Hb].
    by destruct (IH b Ha Hb H) as [-> ->].
Qed.

(** Two prefixed UIDs that are equal come from the same league id, when
    league ids hold no hyphen. *)
Lemma uid_prefix_league (L1 L2 T1 T2 u1 u2 : str) :
  ch "-" ∉ L1 → ch "-" ∉ L2 →
  uid_prefix L1 T1 ++ py "-" ++ u1 = uid_prefix L2 T2 ++ py "-" ++ u2 → L1 = L2.
Proof.
  intros H1 H2. unfold uid_prefix. rewrite <- !app_assoc. intros H.
  apply app_inv_head in H.
  change (py "-team" ++ ?x) with (ch "-" :: (py "team" ++ x)) in H.
  by apply first_char_unique in H as [-> _].
Qed.

Lemma no_lf_uid_prefix (liga_id ms : str) : LF ∉ liga_id → LF ∉ ms → LF ∉ uid_prefix liga_id ms.
Proof.
  intros HL Hms. unfold uid_prefix. repeat apply no_lf_app; auto.
  - intros H%list_elem_of_In. vm_compute in H. intuition discriminate.
  - intros H%list_elem_of_In. vm_compute in H. intuition discriminate.
Qed.

Section Pipeline.

Context (U : unicode) (hash : str → Z).
Context (http_options : str → option (list (str * str))).
Context (http_ics : str → str → option str).

Lemma fold_left_append (f : str → str) (events merged : list str) :
  fold_left (λ merged ev, merged ++ [f ev]) events merged = merged ++ map f events.
Proof.
  revert merged. induction events as [|ev events IH]; intros merged; simpl.
  - by rewrite app_nil_r.
  - by rewrite IH, <- app_assoc.
Qed.

Lemma main_loop_Ok (targets : list (str * str)) (acc merged : list str) :
  main_loop U hash http_options http_ics targets acc = Ok merged →
  ∃ parts, merged = acc ++ concat parts
           ∧ Forall2 (feed_events U hash http_options http_ics) targets parts.
Proof.
  revert acc. induction targets as [|[team_name liga_id] targets IH]; intros acc.
  - intros [= <-]. exists []. by rewrite app_nil_r.
  - cbn [main_loop].
    destruct (fetch_team_id U http_options team_name liga_id) as [ms| |] eqn:Ems; try done.
    destruct (fetch_ics http_ics liga_id ms) as [ics| |] eqn:Eics; try done.
    destruct (extract_events ics) as [|ev events] eqn:Eev; [done|].
    rewrite fold_left_append. intros (parts & -> & Hparts)%IH.
    exists (map (transform hash (uid_prefix liga_id ms) team_name) (ev :: events) :: parts).
    split; [by rewrite <- app_assoc|]. constructor; [|done].
    exists ms, ics. by rewrite Eev.
Qed.

Lemma elem_of_concat (e : str) (parts : list (list str)) :
  e ∈ concat parts → ∃ (a : nat) part, parts !! a = Some part ∧ e ∈ part.
Proof.
  induction parts as [|p parts IH]; simpl; [by intros ?%elem_of_nil|].
  intros [He|He]%elem_of_app.
  - by exists O, p.
  - destruct (IH He) as (a & part & Ha & Hin). by exists (S a), part.
Qed.

Lemma elem_of_map (f : str → str) (e : str) (l : list str) :
  e ∈ map f l → ∃ x, e = f x ∧ x ∈ l.
Proof.
  intros (x & <- & Hx)%list_elem_of_In%in_map_iff. exists x. split; [done|].
  by apply list_elem_of_In.
Qed.

Context (targets : list (str * str)).
Hypothesis leagues_distinct : NoDup (targets.*2).
Hypothesis names_and_leagues :
  ∀ team_name liga_id, (team_name, liga_id) ∈ targets →
    (LF ∉ team_name) ∧ (LF ∉ liga_id) ∧ (ch "-" ∉ liga_id).
Hypothesis feeds :
  ∀ team_name liga_id ms ics, (team_name, liga_id) ∈ targets →
    fetch_team_id U http_options team_name liga_id = Ok ms →
    fetch_ics http_ics liga_id ms = Ok ics →
    (LF ∉ ms) ∧ well_formed_feed (extract_events ics).

(** Where a record of the merged list comes from. *)
Lemma merged_origin (parts : list (list str)) (e : str) :
  Forall2 (feed_events U hash http_options http_ics) targets parts →
  e ∈ concat parts →
  ∃ (a : nat) team_name liga_id ms ics ev u,
    targets !! a = Some (team_name, liga_id)
    ∧ fetch_team_id U http_options team_name liga_id = Ok ms
    ∧ fetch_ics http_ics liga_id ms = Ok ics
    ∧ ev ∈ extract_events ics
    ∧ uid_values ev = [u]
    ∧ e = transform hash (uid_prefix liga_id ms) team_name ev
    ∧ uid_values e = [uid_prefix liga_id ms ++ py "-" ++ u].
Proof using names_and_leagues feeds.
  intros Hparts (a & part & Ha & He)%elem_of_concat.
  destruct (Forall2_lookup_r _ _ _ _ _ Hparts Ha)
    as ([team_name liga_id] & Ht & ms & ics & Hms & Hics & ->).
  simpl in Hms, Hics. apply elem_of_map in He as (ev & -> & Hev).
  assert ((team_name, liga_id) ∈ targets) as Hin by by eapply list_elem_of_lookup_2.
  destruct (names_and_leagues _ _ Hin) as (Hn & HL & _).
  destruct (feeds _ _ _ _ Hin Hms Hics) as (Hm & Hone & _).
  destruct (Hone ev Hev) as [u Hu].
  exists a, team_name, liga_id, ms, ics, ev, u. split_and!; try done.
  simpl. rewrite uid_values_transform, Hu; [done | by rewrite Hu | | done].
  by apply no_lf_uid_prefix.
Qed.


End Pipeline.

Lemma NoDup_fmap_inj (f : str → list str) (l : list str) (x y : str) :
  NoDup (f <$> l) → x ∈ l → y ∈ l → f x = f y → x = y.
Proof.
  induction l as [|z l IH]; [by intros _ ?%elem_of_nil|].
  rewrite fmap_cons, list.NoDup_cons. intros [Hz Hl].
  intros Hx Hy Hf.
  apply elem_of_cons in Hx as [Hx|Hx]; apply elem_of_cons in Hy as [Hy|Hy]; subst; auto.
  - destruct Hz. rewrite Hf. by apply (list_elem_of_fmap_2 f).
  - destruct Hz. rewrite <- Hf. by apply (list_elem_of_fmap_2 f).
Qed.

(** A test that discharges [well_formed_feed] on a given list of events. *)
Lemma well_formed_feed_test (events : list str) :
  forallb (λ ev, bool_decide (length (uid_values ev) = 1%nat)) events = true →
  bool_decide (NoDup (uid_values <$> events)) = true →
  well_formed_feed events.
Proof.
  intros Hone Hnodup. split.
  - intros ev Hev%list_elem_of_In. rewrite forallb_forall in Hone.
    apply Hone, bool_decide_eq_true in Hev.
    destruct (uid_values ev) as [|u [|? ?]]; try done. by exists u.
  - intros ev ev' Hev Hev'. apply (NoDup_fmap_inj uid_values events); [|done|done].
    by apply bool_decide_eq_true in Hnodup.
Qed.



(** ** The model on the examples of the specification *)

Example norm_grombuehl : norm PyLib.lib (py "Gromb\xfchl") = py "grombuhl".
Proof. vm_compute. reflexivity. Qed.

Example norm_entity : norm PyLib.lib (py " TG  Veitsh&ouml;chheim ") = py "tg veitshochheim".
Proof. vm_compute. reflexivity. Qed.

Example annotate_summary_heimspiel :
  annotate_summary (py "TSV Gromb\xfchl 2") (py "SUMMARY:Heimspiel\r\n")
  = py "SUMMARY:Heimspiel [TSV Gromb\xfchl 2]\r\n".
Proof. vm_compute. reflexivity. Qed.

Example normalize_crlf_mixed :
  normalize_crlf (py "a\nb\r\nc\rd\r\r\ne\n\r") = py "a\r\nb\r\nc\r\nd\r\n\r\ne\r\n\r\n".
Proof. vm_compute. reflexivity. Qed.

Example extract_events_two :
  extract_events (py "BEGIN:VCALENDAR\r\nBEGIN:VEVENT\r\nUID:1\r\nEND:VEVENT\r\nX\r\nBEGIN:VEVENT\r\nEND:VEVENT\r\nBEGIN:VEVENT\r\nUID:2\r\nEND:VEVENT\r\n")
  = [py "BEGIN:VEVENT\r\nUID:1\r\nEND:VEVENT\r\n";
     py "BEGIN:VEVENT\r\nEND:VEVENT\r\nBEGIN:VEVENT\r\nUID:2\r\nEND:VEVENT\r\n"].
Proof. vm_compute. reflexivity. Qed.

Example main_no_events :
  main_merged PyLib.lib (λ _, 0%Z) demo_options (λ _ _, Some (py "BEGIN:VCALENDAR\r\nEND:VCALENDAR\r\n"))
    [(py "A", py "1")]
  = RuntimeError (py "Keine VEVENTs gefunden f\xfcr A (liga_id=1, ms_liga_id=7)").
Proof. vm_compute. reflexivity. Qed.

(** * Further properties of the code *)

(** ** [prefix_uid] on a record without UID and without DTSTART line *)

Lemma insert_uid_none (uid : str) (ls out : list str) :
  Forall (λ l, startswith (py "DTSTART") l = false) ls →
  fold_left (insert_uid_step uid) ls (out, false) = (out ++ ls, false).
Proof.
  intros Hls. revert out. induction Hls as [|l ls Hl _ IH]; intros out; cbn [fold_left].
  - by rewrite app_nil_r.
  - rewrite insert_uid_step_false, Hl, IH. by rewrite <- app_assoc.
Qed.

(** X1: a record that holds no [UID:] and none of whose lines (the pieces
    between CR LF) starts with [DTSTART] is returned as it is: no UID is
    made up for it. *)
Theorem prefix_uid_without_uid_and_dtstart (hash : str → Z) (ev prefix : str) :
  str_in (py "UID:") ev = false →
  Forall (λ l, startswith (py "DTSTART") l = false) (split_crlf ev) →
  prefix_uid hash ev prefix = ev.
Proof.
  intros Hno Hlines. unfold prefix_uid. rewrite Hno.
  rewrite insert_uid_none by done. simpl. apply join_split_crlf.
Qed.

Lemma prefix_uid_without_uid_and_dtstart_witness :
  prefix_uid (λ _, 7%Z) (py "BEGIN:VEVENT\r\nSUMMARY:z\r\n DTSTART:1\r\nEND:VEVENT\r\n")
    (py "liga1-team7")
  = py "BEGIN:VEVENT\r\nSUMMARY:z\r\n DTSTART:1\r\nEND:VEVENT\r\n".
Proof.
  apply (prefix_uid_without_uid_and_dtstart (λ _, 7%Z)).
  - vm_compute. reflexivity.
  - apply Forall_forall. intros l Hl%list_elem_of_In. vm_compute in Hl.
    intuition (subst; vm_compute; reflexivity).
Defined.

(** ** [fetch_ics]: the normalization of an already normalized text *)

Lemma normalize_crlf_stages (t : str) :
  normalize_crlf t = replace [LF] [CR; LF] (replace [CR] [LF] (replace [CR; LF] [LF] t)).
Proof. done. Qed.

Lemma normalize_crlf_char (c : N) (s : str) :
  c ≠ CR → c ≠ LF → normalize_crlf (c :: s) = c :: normalize_crlf s.
Proof.
  intros Hcr Hlf. rewrite !normalize_crlf_stages.
  rewrite replace_crlf_other, replace_cr_cons, replace_lf_cons.
  - apply N.eqb_neq in Hcr, Hlf. by rewrite Hcr, Hlf.
  - apply N.eqb_neq in Hcr. by rewrite Hcr.
Qed.

Lemma normalize_crlf_break (s : str) :
  normalize_crlf (CR :: LF :: s) = CR :: LF :: normalize_crlf s.
Proof.
  rewrite !normalize_crlf_stages.
  by rewrite replace_crlf_break, replace_cr_cons, replace_lf_cons.
Qed.

Lemma normalize_crlf_crlf_text (t : str) : crlf_text t → normalize_crlf t = t.
Proof.
  induction 1 as [|c s Hcr Hlf _ IH|s _ IH]; [done| |].
  - by rewrite normalize_crlf_char, IH.
  - by rewrite normalize_crlf_break, IH.
Qed.

Lemma crlf_text_normalize (t : str) : crlf_text (normalize_crlf t).
Proof. rewrite normalize_crlf_stages. apply replace_lf_crlf_text, replace_cr_no_cr. Qed.

Lemma breaks_tail (c : N) (s : str) :
  c ≠ CR → breaks_are_crlf (c :: s) → breaks_are_crlf s.
Proof.
  intros Hc H i. destruct (H (S i)) as [H1 H2]. simpl in H1, H2. split; [|done].
  intros (j & [= <-] & Hj)%H1. destruct i as [|i]; simpl in Hj; [congruence|]. eauto.
Qed.

Lemma breaks_tail2 (s : str) : breaks_are_crlf (CR :: LF :: s) → breaks_are_crlf s.
Proof.
  intros H i. destruct (H (S (S i))) as [H1 H2]. simpl in H1, H2. split; [|done].
  intros (j & [= <-] & Hj)%H1. destruct i as [|i]; simpl in Hj; [done|]. eauto.
Qed.

Lemma breaks_crlf_text (t : str) : breaks_are_crlf t → crlf_text t.
Proof.
  remember (length t) as n eqn:Hn. revert t Hn.
  induction n as [n IH] using lt_wf_ind. intros t -> H.
  destruct t as [|c s]; [constructor|].
  destruct (N.eqb_spec c CR) as [->|Hcr].
  - destruct (H O) as [_ H0]. specialize (H0 eq_refl).
    destruct s as [|d s]; [done|]. injection H0 as ->.
    apply crlf_break. apply (IH (length s)); [simpl; lia | done | by apply breaks_tail2].
  - destruct (N.eqb_spec c LF) as [->|Hlf].
    + destruct (H O) as [H0 _]. by destruct (H0 eq_refl) as (j & ? & _).
    + apply crlf_char; [done | done |].
      apply (IH (length s)); [simpl; lia | done | by eapply breaks_tail].
Qed.

(** X2: normalizing twice is normalizing once. *)
Theorem normalize_crlf_idempotent (t : str) :
  normalize_crlf (normalize_crlf t) = normalize_crlf t.
Proof. apply normalize_crlf_crlf_text, crlf_text_normalize. Qed.

(** X3: a text in which every LF directly follows a CR and every CR is
    directly followed by a LF is left as it is. *)
Theorem normalize_crlf_fixpoint (t : str) :
  breaks_are_crlf t → normalize_crlf t = t.
Proof. intros H. by apply normalize_crlf_crlf_text, breaks_crlf_text. Qed.

Lemma normalize_crlf_fixpoint_witness :
  normalize_crlf (py "BEGIN:VCALENDAR\r\n\r\nEND:VCALENDAR\r\n")
  = py "BEGIN:VCALENDAR\r\n\r\nEND:VCALENDAR\r\n".
Proof.
  apply normalize_crlf_fixpoint, crlf_text_breaks.
  change (crlf_text (py "BEGIN:VCALENDAR" ++ CR :: LF :: CR :: LF
                       :: py "END:VCALENDAR" ++ CR :: LF :: [])).
  repeat (first [apply crlf_break | apply crlf_char; [done | done |] | apply crlf_nil]).
Defined.

(** ** The dedupe on lists without duplicates *)

Lemma dedupe_fixed (l : list str) : NoDup l → dedupe l = l.
Proof.
  induction l as [|x l IH] using rev_ind; [done|].
  intros [Hl [Hx _]]%NoDup_app. rewrite dedupe_snoc.
  rewrite decide_False; [by rewrite IH|].
  intros Hin. apply (Hx x Hin), list_elem_of_here.
Qed.

(** X4: a list without duplicates is left as it is. *)
Theorem dedupe_NoDup (merged : list str) : NoDup merged → dedupe merged = merged.
Proof. apply dedupe_fixed. Qed.

Lemma dedupe_NoDup_witness :
  dedupe [py "A"; py "B"; py "C"] = [py "A"; py "B"; py "C"].
Proof.
  apply dedupe_NoDup.
  apply (bool_decide_unpack (NoDup [py "A"; py "B"; py "C"])). vm_compute. exact I.
Defined.

(** X5: the dedupe is idempotent and never makes the list longer. *)
Theorem dedupe_idempotent (merged : list str) :
  dedupe (dedupe merged) = dedupe merged
  ∧ (length (dedupe merged) ≤ length merged)%nat.
Proof.
  split.
  - apply dedupe_fixed, NoDup_dedupe.
  - apply sublist_length, dedupe_sublist.
Qed.

(** ** [fetch_team_id]: what it can return *)

Lemma exact_pass_Some (wanted : str) (candidates : list candidate) (val : str) :
  exact_pass wanted candidates = Some val →
  ∃ c, c ∈ candidates ∧ c.1.2 = val ∧ exact_match wanted c.
Proof.
  induction candidates as [|[[lc v] o] cs IH]; [done|]. cbn [exact_pass].
  destruct (str_eqb lc wanted) eqn:E.
  - intros [= <-]. exists (lc, v, o). split_and!; [apply list_elem_of_here | done |].
    by apply str_eqb_eq in E.
  - intros (c & Hc & H)%IH. exists c. split; [by apply list_elem_of_further | done].
Qed.

Lemma contains_pass_Some (wanted : str) (candidates : list candidate) (val : str) :
  contains_pass wanted candidates = Some val →
  ∃ c, c ∈ candidates ∧ c.1.2 = val ∧ contains_match wanted c.
Proof.
  induction candidates as [|[[lc v] o] cs IH]; [done|]. cbn [contains_pass].
  destruct (str_in wanted lc || str_in lc wanted) eqn:E.
  - intros [= <-]. exists (lc, v, o). split_and!; [apply list_elem_of_here | done |].
    by apply contains_test in E.
  - intros (c & Hc & H)%IH. exists c. split; [by apply list_elem_of_further | done].
Qed.

Lemma exact_contains_match (wanted : str) (c : candidate) :
  exact_match wanted c → contains_match wanted c.
Proof. intros <-. left. exists [], []. by rewrite app_nil_r. Qed.

Lemma elem_of_candidates (U : unicode) (opts : list (str * str)) (c : candidate) :
  c ∈ map (candidate_of U) (List.filter (kept_option U) opts) →
  ∃ o, o ∈ opts ∧ kept_option U o = true ∧ c = candidate_of U o.
Proof.
  intros (o & <- & [Ho Hk]%filter_In)%list_elem_of_In%in_map_iff.
  exists o. split_and!; [by apply list_elem_of_In | done | done].
Qed.

(** X6: a team id that the resolver returns is the stripped value of an
    option of the page; it is neither "-1" nor empty, and the normalized
    label of that option contains the normalized wanted name or is contained
    in it. *)
Theorem fetch_team_id_returns_option (U : unicode)
    (http_options : str → option (list (str * str))) (team_name liga_id val : str) :
  fetch_team_id U http_options team_name liga_id = Ok val →
  ∃ opts v label,
    http_options liga_id = Some opts
    ∧ (v, label) ∈ opts
    ∧ val = strip U v
    ∧ val ≠ py "-1" ∧ val ≠ py ""
    ∧ contains_match (norm U team_name) (candidate_of U (v, label)).
Proof.
  unfold fetch_team_id, resolve.
  destruct (http_options liga_id) as [opts|]; [|done].
  rewrite candidates_of_filter.
  set (wanted := norm U team_name).
  set (candidates := map (candidate_of U) (List.filter (kept_option U) opts)).
  assert (∀ c, c ∈ candidates → contains_match wanted c → c.1.2 = val →
            ∃ opts0 v label, Some opts = Some opts0 ∧ (v, label) ∈ opts0
              ∧ val = strip U v ∧ val ≠ py "-1" ∧ val ≠ py ""
              ∧ contains_match wanted (candidate_of U (v, label))) as Hfound.
  { intros c ([v label] & Ho & Hk & ->)%elem_of_candidates Hc <-.
    exists opts, v, label. unfold kept_option in Hk. simpl in *.
    apply negb_true_iff, orb_false_iff in Hk as [H1 H2].
    split_and!; try done.
    - intros E. by rewrite E, str_eqb_refl in H1.
    - intros E. by rewrite E, str_eqb_refl in H2. }
  destruct (exact_pass wanted candidates) as [v1|] eqn:E1.
  - intros [= <-]. apply exact_pass_Some in E1 as (c & Hc & Hv & Hm).
    apply (Hfound c); [done | by apply exact_contains_match | done].
  - destruct (contains_pass wanted candidates) as [v2|] eqn:E2; [|done].
    intros [= <-]. apply contains_pass_Some in E2 as (c & Hc & Hv & Hm).
    by apply (Hfound c).
Qed.

Lemma fetch_team_id_returns_option_witness :
  ∃ opts v label,
    demo_options (py "1") = Some opts
    ∧ (v, label) ∈ opts
    ∧ py "8" = strip PyLib.lib v
    ∧ py "8" ≠ py "-1" ∧ py "8" ≠ py ""
    ∧ contains_match (norm PyLib.lib (py " b ")) (candidate_of PyLib.lib (v, label)).
Proof.
  apply (fetch_team_id_returns_option PyLib.lib demo_options (py " b ") (py "1") (py "8")).
  vm_compute. reflexivity.
Defined.

Lemma contains_pass_hit (wanted : str) (candidates : list candidate) (c : candidate) :
  c ∈ candidates → contains_match wanted c → contains_pass wanted candidates ≠ None.
Proof.
  intros Hc Hm E. destruct (contains_pass wanted candidates) eqn:E'; [done|].
  clear E. induction candidates as [|[[lc v] o] cs IH]; [by apply elem_of_nil in Hc|].
  cbn [contains_pass] in E'.
  destruct (str_in wanted lc || str_in lc wanted) eqn:Et; [done|].
  apply elem_of_cons in Hc as [->|Hc]; [|auto].
  apply contains_match_test in Hm. simpl in Hm. congruence.
Qed.

(** X7: the containment test of the second pass holds for every candidate
    when the normalized wanted name is empty, and for every wanted name when
    the normalized label of the candidate is empty.  So the resolver does not
    fail when some option it keeps has an empty normalized label, nor when
    the wanted name normalizes to the empty string and an option is kept. *)
Theorem fetch_team_id_empty_string (U : unicode)
    (http_options : str → option (list (str * str)))
    (team_name liga_id : str) (opts : list (str * str)) (c : candidate) :
  http_options liga_id = Some opts →
  c ∈ map (candidate_of U) (List.filter (kept_option U) opts) →
  c.1.1 = [] ∨ norm U team_name = [] →
  ∃ val, fetch_team_id U http_options team_name liga_id = Ok val.
Proof.
  intros Hpage Hc Hempty. unfold fetch_team_id, resolve.
  rewrite Hpage, candidates_of_filter.
  destruct (exact_pass _ _) as [v|]; [by exists v|].
  destruct (contains_pass _ _) as [v|] eqn:E; [by exists v|].
  exfalso. eapply contains_pass_hit; [exact Hc | | exact E].
  destruct Hempty as [Hl|Hw].
  - right. rewrite Hl. by exists [], (norm U team_name).
  - left. rewrite Hw. by exists [], (c.1.1).
Qed.

Lemma fetch_team_id_empty_string_witness :
  ∃ val,
    fetch_team_id PyLib.lib (λ _, Some [(py "5", py "<b>&nbsp;</b>"); (py "6", py "Beta")])
      (py "TSV Gromb\xfchl") (py "52205") = Ok val.
Proof.
  refine (fetch_team_id_empty_string PyLib.lib
            (λ _, Some [(py "5", py "<b>&nbsp;</b>"); (py "6", py "Beta")])
            (py "TSV Gromb\xfchl") (py "52205")
            [(py "5", py "<b>&nbsp;</b>"); (py "6", py "Beta")] ([], py "5", py "&nbsp;")
            eq_refl _ _).
  - apply list_elem_of_In. vm_compute. auto.
  - by left.
Defined.

(** ** The removal of the markup of a label *)

Lemma strip_tags_from_cons (c : N) (s : str) :
  strip_tags_from 0 (c :: s)
  = if c =? ch "<" then
      match tag_end s with
      | Some n => strip_tags_from n s
      | None => c :: strip_tags_from 0 s
      end
    else c :: strip_tags_from 0 s.
Proof. done. Qed.

Lemma tag_end_cons (c : N) (s : str) :
  tag_end (c :: s)
  = if c =? ch ">" then Some 1%nat else if c =? LF then None else S <$> tag_end s.
Proof. done. Qed.

Lemma tag_end_strip_tags (s : str) :
  tag_end s = None → tag_end (strip_tags_from 0 s) = None.
Proof.
  induction s as [|c s IH]; [done|]. rewrite tag_end_cons, strip_tags_from_cons.
  destruct (c =? ch ">") eqn:Egt; [done|].
  destruct (c =? LF) eqn:Elf.
  - intros _. destruct (c =? ch "<") eqn:Elt.
    + apply N.eqb_eq in Elf, Elt. by rewrite Elf in Elt.
    + by rewrite tag_end_cons, Egt, Elf.
  - intros H. assert (tag_end s = None) as Hs by by destruct (tag_end s).
    rewrite Hs. destruct (c =? ch "<"); by rewrite tag_end_cons, Egt, Elf, IH.
Qed.

Lemma strip_tags_from_stable (k : nat) (s : str) :
  strip_tags_from 0 (strip_tags_from k s) = strip_tags_from k s.
Proof.
  revert k. induction s as [|c s IH]; intros k; [by destruct k|].
  destruct k as [|k]; [|apply IH]. rewrite strip_tags_from_cons.
  destruct (c =? ch "<") eqn:Elt.
  - destruct (tag_end s) as [n|] eqn:E; [apply IH|].
    rewrite strip_tags_from_cons, Elt, tag_end_strip_tags, IH; done.
  - by rewrite strip_tags_from_cons, Elt, IH.
Qed.

Lemma strip_tags_from_length (k : nat) (s : str) :
  (length (strip_tags_from k s) ≤ length s)%nat.
Proof.
  revert k. induction s as [|c s IH]; intros k; [by destruct k|].
  destruct k as [|k]; [|specialize (IH k); simpl; lia].
  rewrite strip_tags_from_cons.
  destruct (c =? ch "<"); [destruct (tag_end s) as [n|]|].
  - specialize (IH n). simpl. lia.
  - specialize (IH O). simpl. lia.
  - specialize (IH O). simpl. lia.
Qed.

(** X8: removing the markup of a label a second time changes nothing, and
    the result is never longer than the label. *)
Theorem strip_tags_idempotent (label : str) :
  strip_tags (strip_tags label) = strip_tags label
  ∧ (length (strip_tags label) ≤ length label)%nat.
Proof. split; [apply strip_tags_from_stable | apply strip_tags_from_length]. Qed.

(** X9: a label without [<] is left as it is. *)
Theorem strip_tags_no_markup (label : str) : ch "<" ∉ label → strip_tags label = label.
Proof.
  unfold strip_tags. induction label as [|c s IH]; [done|].
  intros [Hc Hs]%not_elem_of_cons. rewrite strip_tags_from_cons.
  assert ((c =? ch "<") = false) as -> by (apply N.eqb_neq; congruence).
  by rewrite IH.
Qed.

Lemma strip_tags_no_markup_witness :
  strip_tags (py "TSV Gromb\xfchl 2 > 1") = py "TSV Gromb\xfchl 2 > 1".
Proof.
  apply strip_tags_no_markup.
  intros H%list_elem_of_In. vm_compute in H. intuition discriminate.
Defined.

(** ** [extract_events] *)

Lemma opt_cr_lf_Some (s r : str) :
  opt_cr_lf s = Some r → ∃ nl, newline nl ∧ s = nl ++ r.
Proof.
  unfold opt_cr_lf. destruct s as [|c s]; [done|].
  destruct (N.eqb_spec c CR) as [->|_].
  - destruct s as [|d s]; [done|]. destruct (N.eqb_spec d LF) as [->|_]; [|done].
    intros [= <-]. exists (py "\r\n"). split; [by right | done].
  - destruct (N.eqb_spec c LF) as [->|_]; [|done].
    intros [= <-]. exists (py "\n"). split; [by left | done].
Qed.

Lemma literal_Some (lit s r : str) : literal lit s = Some r → s = lit ++ r.
Proof.
  unfold literal. destruct (startswith lit s) eqn:E; [|done].
  intros [= <-]. by apply startswith_drop.
Qed.

Lemma begin_vevent_Some (s r : str) :
  begin_vevent s = Some r → ∃ nl, newline nl ∧ s = py "BEGIN:VEVENT" ++ nl ++ r.
Proof.
  unfold begin_vevent. destruct (literal _ s) as [r1|] eqn:E1; [|done].
  apply literal_Some in E1 as ->. intros (nl & Hnl & ->)%opt_cr_lf_Some. eauto.
Qed.

Lemma end_vevent_Some (s r : str) :
  end_vevent s = Some r →
  ∃ nl2 nl3, newline nl2 ∧ newline nl3 ∧ s = nl2 ++ py "END:VEVENT" ++ nl3 ++ r.
Proof.
  unfold end_vevent. destruct (opt_cr_lf s) as [r1|] eqn:E1; [|done].
  apply opt_cr_lf_Some in E1 as (nl2 & Hnl2 & ->).
  destruct (literal _ r1) as [r2|] eqn:E2; [|done].
  apply literal_Some in E2 as ->. intros (nl3 & Hnl3 & ->)%opt_cr_lf_Some.
  by exists nl2, nl3.
Qed.

Lemma lazy_body_cons (s : str) :
  lazy_body s
  = match end_vevent s with
    | Some rest => Some (length s - length rest)%nat
    | None => match s with [] => None | _ :: s' => S <$> lazy_body s' end
    end.
Proof. by destruct s. Qed.

Lemma lazy_body_Some (s : str) (m : nat) :
  lazy_body s = Some m →
  ∃ body nl2 nl3 rest,
    newline nl2 ∧ newline nl3
    ∧ s = (body ++ nl2 ++ py "END:VEVENT" ++ nl3) ++ rest
    ∧ m = length (body ++ nl2 ++ py "END:VEVENT" ++ nl3).
Proof.
  revert m. induction s as [|c s IH]; intros m; rewrite lazy_body_cons.
  - destruct (end_vevent []) as [rest|] eqn:E; [|done].
    apply end_vevent_Some in E as (nl2 & nl3 & _ & _ & E). by destruct nl2.
  - destruct (end_vevent (c :: s)) as [rest|] eqn:E.
    + intros [= <-]. apply end_vevent_Some in E as (nl2 & nl3 & H2 & H3 & Hs).
      exists [], nl2, nl3, rest. split_and!; [done | done | by rewrite Hs, <- !app_assoc |].
      change (S (length s)) with (length (c :: s)).
      rewrite Hs, !length_app. simpl. lia.
    + destruct (lazy_body s) as [m'|] eqn:E'; [|done]. intros [= <-].
      destruct (IH m' eq_refl) as (body & nl2 & nl3 & rest & H2 & H3 & -> & ->).
      by exists (c :: body), nl2, nl3, rest.
Qed.

Lemma match_vevent_Some (s : str) (n : nat) :
  match_vevent s = Some n →
  ∃ ev rest, s = ev ++ rest ∧ n = length ev ∧ vevent_text ev.
Proof.
  unfold match_vevent. destruct (begin_vevent s) as [r|] eqn:E1; [|done].
  apply begin_vevent_Some in E1 as (nl1 & H1 & ->).
  destruct (lazy_body r) as [m|] eqn:E2; [|done]. intros [= <-].
  apply lazy_body_Some in E2 as (body & nl2 & nl3 & rest & H2 & H3 & -> & ->).
  exists (py "BEGIN:VEVENT" ++ nl1 ++ body ++ nl2 ++ py "END:VEVENT" ++ nl3), rest.
  split_and!.
  - by rewrite <- !app_assoc.
  - rewrite !length_app. change (length (py "BEGIN:VEVENT")) with 12%nat. lia.
  - by exists nl1, body, nl2, nl3.
Qed.

Lemma vevent_text_nonempty (ev : str) : vevent_text ev → ev ≠ [].
Proof. by intros (nl1 & body & nl2 & nl3 & _ & _ & _ & ->). Qed.

Lemma findall_vevent_skip (k : nat) (s : str) :
  findall_vevent k s = findall_vevent 0 (drop k s).
Proof.
  revert k. induction s as [|c s IH]; intros [|k]; try done. simpl. apply IH.
Qed.

Lemma findall_vevent_cons (c : N) (s : str) :
  findall_vevent 0 (c :: s)
  = match match_vevent (c :: s) with
    | Some n => take n (c :: s) :: findall_vevent 0 (drop n (c :: s))
    | None => findall_vevent 0 s
    end.
Proof.
  change (findall_vevent 0 (c :: s))
    with (match match_vevent (c :: s) with
          | Some n => take n (c :: s) :: findall_vevent (n - 1) s
          | None => findall_vevent 0 s
          end).
  destruct (match_vevent (c :: s)) as [n|] eqn:E; [|done].
  rewrite findall_vevent_skip. f_equal.
  apply match_vevent_Some in E as (ev & rest & _ & -> & Hev%vevent_text_nonempty).
  destruct ev as [|d ev]; [done|]. simpl. by rewrite Nat.sub_0_r.
Qed.

Lemma findall_vevent_layout (t : str) :
  ∃ gaps tail,
    length gaps = length (findall_vevent 0 t)
    ∧ t = interleave gaps (findall_vevent 0 t) tail
    ∧ Forall vevent_text (findall_vevent 0 t).
Proof.
  remember (length t) as n eqn:Hn. revert t Hn.
  induction n as [n IH] using lt_wf_ind. intros t ->.
  destruct t as [|c s]; [by exists [], []|].
  rewrite findall_vevent_cons.
  destruct (match_vevent (c :: s)) as [m|] eqn:E.
  - apply match_vevent_Some in E as (ev & rest & Hs & -> & Hev).
    rewrite Hs, take_app_length, drop_app_length.
    destruct (IH (length rest)) with (t := rest) as (gaps & tail & Hlen & Hrest & Hall).
    { apply (f_equal length) in Hs. rewrite length_app in Hs.
      apply vevent_text_nonempty in Hev. destruct ev; [done|]. simpl in *. lia. }
    { done. }
    exists ([] :: gaps), tail. split_and!.
    + simpl. by rewrite Hlen.
    + simpl. by rewrite <- Hrest.
    + by constructor.
  - destruct (IH (length s)) with (t := s) as (gaps & tail & Hlen & Hrest & Hall);
      [simpl; lia | done |].
    destruct gaps as [|g gaps].
    + exists [], (c :: s). split_and!; [done | | done].
      by destruct (findall_vevent 0 s).
    + destruct (findall_vevent 0 s) as [|e es] eqn:Ees; [done|].
      exists ((c :: g) :: gaps), tail. split_and!; [done | | done].
      rewrite Hrest at 1. done.
Qed.

Lemma extracted_layout (t : str) :
  ∃ gaps tail,
    length gaps = length (extract_events t)
    ∧ t = interleave gaps (extract_events t) tail
    ∧ Forall vevent_text (extract_events t).
Proof. apply findall_vevent_layout. Qed.

(** X10: the events that [extract_events] returns lie in the text one
    after the other, in the order of the list and without overlap, and each
    of them is the begin marker, a line terminator, a body, a line
    terminator, the end marker and a line terminator. *)
Theorem extract_events_layout (ics_text : str) :
  ∃ gaps tail,
    length gaps = length (extract_events ics_text)
    ∧ ics_text = interleave gaps (extract_events ics_text) tail
    ∧ Forall vevent_text (extract_events ics_text).
Proof. apply extracted_layout. Qed.

Lemma substring_app_l (x a b : str) : substring x a → substring x (a ++ b).
Proof.
  intros (pre & post & ->). exists pre, (post ++ b). by rewrite <- !app_assoc.
Qed.

Lemma substring_app_r (x a b : str) : substring x b → substring x (a ++ b).
Proof.
  intros (pre & post & ->). exists (a ++ pre), post. by rewrite <- !app_assoc.
Qed.

Lemma vevent_text_markers (ev : str) :
  vevent_text ev → substring (py "BEGIN:VEVENT") ev ∧ substring (py "END:VEVENT") ev.
Proof.
  intros (nl1 & body & nl2 & nl3 & _ & _ & _ & ->). split.
  - by exists [], (nl1 ++ body ++ nl2 ++ py "END:VEVENT" ++ nl3).
  - exists (py "BEGIN:VEVENT" ++ nl1 ++ body ++ nl2), nl3. by rewrite <- !app_assoc.
Qed.

(** X11: a text in which the begin marker or the end marker does not
    occur has no event. *)
Theorem extract_events_no_marker (ics_text : str) :
  str_in (py "BEGIN:VEVENT") ics_text = false ∨ str_in (py "END:VEVENT") ics_text = false →
  extract_events ics_text = [].
Proof.
  intros Hno. destruct (extracted_layout ics_text) as (gaps & tail & Hlen & Ht & Hall).
  destruct (extract_events ics_text) as [|ev es]; [done|]. exfalso.
  destruct gaps as [|g gaps]; [done|]. simpl in Ht.
  apply Forall_cons in Hall as [[Hb He]%vevent_text_markers _].
  assert (∀ x, substring x ev → str_in x ics_text = true) as Hsub.
  { intros x Hx. apply str_in_spec. rewrite Ht.
    by apply substring_app_r, substring_app_l. }
  destruct Hno as [Hno|Hno]; rewrite Hsub in Hno; done.
Qed.

Lemma extract_events_no_marker_witness :
  extract_events (py "BEGIN:VCALENDAR\r\nBEGIN:VEVENT\r\nUID:1\r\nEND:VCALENDAR\r\n") = [].
Proof.
  apply extract_events_no_marker. right. vm_compute. reflexivity.
Defined.

(** ** The loop of [main] *)

Section MainLoop.

Context (U : unicode) (hash : str → Z).
Context (http_options : str → option (list (str * str))).
Context (http_ics : str → str → option str).

Abbreviation round := (target_events U hash http_options http_ics).

Lemma main_loop_cons (t : str * str) (targets : list (str * str)) (acc : list str) :
  main_loop U hash http_options http_ics (t :: targets) acc
  = match round t with
    | Ok part => main_loop U hash http_options http_ics targets (acc ++ part)
    | RuntimeError msg => RuntimeError msg
    | HTTPError => HTTPError
    end.
Proof.
  destruct t as [team_name liga_id]. cbn [main_loop target_events].
  destruct (fetch_team_id U http_options team_name liga_id) as [ms| |]; try done.
  destruct (fetch_ics http_ics liga_id ms) as [ics| |]; try done.
  destruct (extract_events ics) as [|ev events]; [done|].
  by rewrite fold_left_append.
Qed.

Lemma main_loop_rounds (targets : list (str * str)) (parts : list (list str)) (acc : list str) :
  Forall2 (λ t part, round t = Ok part) targets parts →
  main_loop U hash http_options http_ics targets acc = Ok (acc ++ concat parts).
Proof.
  intros H. revert acc. induction H as [|t part targets parts Ht _ IH]; intros acc.
  - by rewrite app_nil_r.
  - rewrite main_loop_cons, Ht, IH. simpl. by rewrite <- app_assoc.
Qed.

Lemma main_loop_rounds_inv (targets : list (str * str)) (acc merged : list str) :
  main_loop U hash http_options http_ics targets acc = Ok merged →
  ∃ parts, Forall2 (λ t part, round t = Ok part) targets parts
           ∧ merged = acc ++ concat parts.
Proof.
  revert acc. induction targets as [|t targets IH]; intros acc.
  - intros [= <-]. exists []. split; [constructor | by rewrite app_nil_r].
  - rewrite main_loop_cons. destruct (round t) as [part| |] eqn:Et; try done.
    intros (parts & Hparts & ->)%IH. exists (part :: parts).
    split; [by constructor | by rewrite <- app_assoc].
Qed.

Lemma main_merged_rounds (targets : list (str * str)) (out : list str) :
  main_merged U hash http_options http_ics targets = Ok out
  ↔ ∃ parts, Forall2 (λ t part, round t = Ok part) targets parts
             ∧ out = dedupe (concat parts).
Proof.
  unfold main_merged. split.
  - destruct (main_loop _ _ _ _ targets []) as [merged| |] eqn:E; try done.
    intros [= <-]. apply main_loop_rounds_inv in E as (parts & Hparts & ->). eauto.
  - intros (parts & Hparts & ->). by rewrite (main_loop_rounds _ parts).
Qed.

(** X12: [main] writes the calendar exactly when the round of every
    target gives its records; the text written is then the header, the
    description line, the records of the rounds in the order of the targets
    with the later copies of a repeated record left out, and the end line, and
    the line printed gives their number. *)
Theorem main_writes_iff_every_round (now : str) (targets : list (str * str)) (text line : str) :
  main U hash http_options http_ics now targets = Ok (text, line)
  ↔ ∃ parts,
      Forall2 (λ t part, round t = Ok part) targets parts
      ∧ text = calendar_text now (dedupe (concat parts))
      ∧ line = ok_line (dedupe (concat parts)).
Proof.
  unfold main. split.
  - destruct (main_merged _ _ _ _ targets) as [out| |] eqn:E; try done.
    intros [= <- <-]. apply main_merged_rounds in E as (parts & Hparts & ->). eauto.
  - intros (parts & Hparts & -> & ->).
    by rewrite (proj2 (main_merged_rounds targets _) (ex_intro _ parts (conj Hparts eq_refl))).
Qed.

(** X13: the merged list of a run holds no record twice, and its records
    are the records of the rounds of the targets: none is lost and none is
    added. *)
Theorem main_merged_records (targets : list (str * str)) (out : list str) :
  main_merged U hash http_options http_ics targets = Ok out →
  NoDup out
  ∧ ∀ e, e ∈ out ↔ ∃ t part, t ∈ targets ∧ round t = Ok part ∧ e ∈ part.
Proof.
  intros (parts & Hparts & ->)%main_merged_rounds. split; [apply NoDup_dedupe|].
  intros e. rewrite elem_of_dedupe. split.
  - intros (a & part & Ha & He)%elem_of_concat.
    destruct (Forall2_lookup_r _ _ _ _ _ Hparts Ha) as (t & Ht & Hround).
    exists t, part. split_and!; [by eapply list_elem_of_lookup_2 | done | done].
  - intros (t & part & (a & Ha)%list_elem_of_lookup_1 & Hround & He).
    destruct (Forall2_lookup_l _ _ _ _ _ Hparts Ha) as (part' & Hpart' & Hround').
    rewrite Hround in Hround'. injection Hround' as <-.
    apply list_elem_of_In, in_concat. exists part.
    split; apply list_elem_of_In; [by eapply list_elem_of_lookup_2 | done].
Qed.

(** X14: the first target whose round ends with an exception ends the
    run with that exception, whatever targets follow it; nothing is
    written. *)
Theorem main_first_failure (now : str) (pre post : list (str * str)) (t : str * str)
    (parts : list (list str)) :
  Forall2 (λ t part, round t = Ok part) pre parts →
  (∀ part, round t ≠ Ok part) →
  raised (round t) (main U hash http_options http_ics now (pre ++ t :: post)).
Proof.
  intros Hpre Hfail. unfold main, main_merged.
  assert (∀ acc, raised (round t)
            (main_loop U hash http_options http_ics (pre ++ t :: post) acc)) as H.
  { induction Hpre as [|t' part pre parts Ht' _ IH]; intros acc.
    - simpl app. rewrite main_loop_cons. destruct (round t) as [part| |]; try done.
      by destruct (Hfail part).
    - simpl app. rewrite main_loop_cons, Ht'. apply IH. }
  specialize (H []).
  destruct (round t) as [part| |], (main_loop _ _ _ _ _ []) as [merged| |]; done.
Qed.

End MainLoop.

Lemma main_merged_records_witness :
  NoDup demo_output
  ∧ ∀ e, e ∈ demo_output
         ↔ ∃ t part, t ∈ demo_targets
                     ∧ target_events PyLib.lib (λ _, 0%Z) demo_options demo_ics t = Ok part
                     ∧ e ∈ part.
Proof.
  apply (main_merged_records PyLib.lib (λ _, 0%Z) demo_options demo_ics demo_targets).
  vm_compute. reflexivity.
Defined.

Lemma main_first_failure_witness :
  raised
    (target_events PyLib.lib (λ _, 0%Z) demo_options demo_ics (py "Z", py "2"))
    (main PyLib.lib (λ _, 0%Z) demo_options demo_ics (py "20260101T000000Z")
       ([(py "A", py "1")] ++ (py "Z", py "2") :: [(py "B", py "2")])).
Proof.
  apply (main_first_failure PyLib.lib (λ _, 0%Z) demo_options demo_ics
           (py "20260101T000000Z") [(py "A", py "1")] [(py "B", py "2")] (py "Z", py "2")
           [take 2 demo_output]).
  - constructor; [vm_compute; reflexivity | constructor].
  - intros part. vm_compute. discriminate.
Defined.

(** ** Line breaks from the feed to the calendar *)

Lemma crlf_text_test (s : str) : normalize_crlf s = s → crlf_text s.
Proof. intros <-. apply crlf_text_normalize. Qed.

Lemma crlf_text_app (a b : str) : crlf_text a → crlf_text b → crlf_text (a ++ b).
Proof. induction 1; simpl; intros Hb; [done | by constructor; auto | by constructor; auto]. Qed.

Lemma plain_crlf_text (s : str) : plain s → crlf_text s.
Proof. induction 1 as [|c s [Hcr Hlf] _ IH]; by constructor. Qed.

Lemma plain_test (s : str) :
  forallb (λ c, negb (c =? CR) && negb (c =? LF)) s = true → plain s.
Proof.
  intros H. apply Forall_forall. intros c Hc%list_elem_of_In.
  rewrite forallb_forall in H. apply H, andb_true_iff in Hc as [H1 H2].
  split; intros ->; done.
Qed.

Lemma plain_app (a b : str) : plain a → plain b → plain (a ++ b).
Proof. apply Forall_app_2. Qed.

Ltac crlf_pieces :=
  repeat match goal with
         | |- crlf_text (_ ++ _) => apply crlf_text_app
         | |- crlf_text (py _) => apply crlf_text_test; vm_compute; reflexivity
         | |- plain (_ ++ _) => apply plain_app
         | |- plain (py _) => apply plain_test; vm_compute; reflexivity
         end.

Lemma crlf_text_split (a b : str) :
  crlf_text (a ++ b) → last a ≠ Some CR ∨ head b ≠ Some LF → crlf_text a ∧ crlf_text b.
Proof.
  remember (length a) as n eqn:Hn. revert a Hn.
  induction n as [n IH] using lt_wf_ind. intros a -> H Hc.
  destruct a as [|c a]; [by split; [constructor|]|].
  simpl in H. inversion H as [|c' s' Hcr Hlf Hs|s' Hs]; clear H.
  - subst c' s'.
    destruct (IH (length a)) with (a := a) as [Ha Hb]; [simpl; lia | done | done | |].
    + destruct a as [|d a]; [by left | done].
    + split; [by constructor | done].
  - destruct a as [|d a]; simplify_eq/=.
    + destruct Hc as [Hc|Hc]; by destruct Hc.
    + destruct (IH (length a)) with (a := a) as [Ha Hb]; [simpl; lia | done | done | |].
      * destruct a as [|e a]; [by left | done].
      * split; [by constructor | done].
Qed.

Lemma crlf_text_concat (ls : list str) : Forall crlf_text ls → crlf_text (concat ls).
Proof. induction 1; simpl; [constructor | by apply crlf_text_app]. Qed.

Lemma crlf_text_lines (s : str) : crlf_text s → Forall crlf_text (lines s).
Proof.
  induction 1 as [|c s Hcr Hlf _ IH|s _ IH].
  - constructor.
  - simpl. destruct (N.eqb_spec c LF) as [|_]; [done|].
    destruct (lines s) as [|l ls].
    + repeat constructor; done.
    + apply Forall_cons in IH as [Hl Hls]. constructor; [by constructor | done].
  - change (lines (CR :: LF :: s)) with ([CR; LF] :: lines s).
    constructor; [|done]. apply crlf_break, crlf_nil.
Qed.

Lemma crlf_text_rewrite_line (tag : str) (repl : str → str) (l : str) :
  (∀ g, crlf_text g → crlf_text (repl g)) →
  crlf_text l → crlf_text (rewrite_line tag repl l).
Proof.
  intros Hrepl Hl. unfold rewrite_line.
  destruct (match_field tag l) as [g|] eqn:E; [|done].
  apply match_field_spec in E as (Hne & Hlf & rest & ->). apply Hrepl.
  apply crlf_text_split in Hl as [_ Hl].
  - apply crlf_text_split in Hl as [Hg _]; [done|]. right. simpl. by intros [=].
  - right. destruct g as [|d g]; [done|]. simpl. intros [= ->].
    destruct Hlf. apply list_elem_of_here.
Qed.

Lemma crlf_text_rewrite_lines (tag : str) (repl : str → str) (s : str) :
  (∀ g, crlf_text g → crlf_text (repl g)) →
  crlf_text s → crlf_text (concat (map (rewrite_line tag repl) (lines s))).
Proof.
  intros Hrepl Hs%crlf_text_lines. apply crlf_text_concat.
  induction Hs; simpl; constructor; [by apply crlf_text_rewrite_line | done].
Qed.

Lemma plain_str_of_N (n : N) : plain (str_of_N n).
Proof.
  unfold str_of_N. induction (N.to_uint n) as [|d IH|d IH|d IH|d IH|d IH|d IH|d IH|d IH|d IH|d IH];
    simpl; [constructor | constructor; [by split|done] ..].
Qed.

Lemma plain_split_crlf_from (cur s : str) :
  plain cur → crlf_text s → Forall plain (split_crlf_from cur s).
Proof.
  intros Hcur Hs. revert cur Hcur.
  induction Hs as [|c s Hcr Hlf _ IH|s _ IH]; intros cur Hcur.
  - by repeat constructor.
  - assert (plain (cur ++ [c])) as Hcur'.
    { apply Forall_app_2; [done|]. by repeat constructor. }
    destruct s as [|d s]; [by repeat constructor|].
    rewrite split_crlf_from_cons2.
    destruct (N.eqb_spec c CR) as [|_]; [done|]. simpl. by apply IH.
  - rewrite split_crlf_from_cons2.
    change ((CR =? CR) && (LF =? LF)) with true. cbv iota.
    constructor; [done|]. apply IH. constructor.
Qed.

Lemma plain_insert_uid (uid : str) (ls out : list str) (b : bool) :
  plain uid → Forall plain ls → Forall plain out →
  Forall plain (fold_left (insert_uid_step uid) ls (out, b)).1.
Proof.
  intros Huid Hls. revert out b.
  induction Hls as [|l ls Hl _ IH]; intros out b Hout; [done|].
  cbn [fold_left]. unfold insert_uid_step at 2.
  assert (Forall plain (out ++ [l])) as Hout'.
  { apply Forall_app_2; [done|]. by repeat constructor. }
  destruct (negb b && startswith (py "DTSTART") l); apply IH; [|done].
  apply Forall_app_2; [done|]. constructor; [|constructor]. by crlf_pieces.
Qed.

Lemma crlf_text_join (ls : list str) : Forall plain ls → crlf_text (join (py "\r\n") ls).
Proof.
  induction 1 as [|l ls Hl Hls IH]; [constructor|].
  destruct ls as [|l' ls]; [by apply plain_crlf_text|].
  rewrite join_cons by done. crlf_pieces; [by apply plain_crlf_text | done].
Qed.

Lemma crlf_text_prefix_uid (hash : str → Z) (ev prefix : str) :
  plain prefix → crlf_text ev → crlf_text (prefix_uid hash ev prefix).
Proof.
  intros Hp Hev. destruct (str_in (py "UID:") ev) eqn:E.
  - rewrite prefix_uid_lines by done. apply crlf_text_rewrite_lines; [|done].
    intros g Hg. unfold uid_repl. crlf_pieces; [by apply plain_crlf_text | done].
  - unfold prefix_uid. rewrite E. apply crlf_text_join, plain_insert_uid.
    + unfold synthesized_uid. crlf_pieces; [done | apply plain_str_of_N].
    + apply plain_split_crlf_from; [constructor | done].
    + constructor.
Qed.

Lemma crlf_text_transform (hash : str → Z) (prefix team_name ev : str) :
  plain prefix → plain team_name → crlf_text ev →
  crlf_text (transform hash prefix team_name ev).
Proof.
  intros Hp Hn Hev. unfold transform. rewrite annotate_summary_lines.
  apply crlf_text_rewrite_lines; [|by apply crlf_text_prefix_uid].
  intros g Hg. unfold summary_repl. crlf_pieces; [done | by apply plain_crlf_text].
Qed.

Lemma vevent_text_ends (ev : str) :
  vevent_text ev → (∃ x, ev = ch "B" :: x) ∧ last ev = Some LF.
Proof.
  intros (nl1 & body & nl2 & nl3 & _ & _ & H3 & ->). split.
  - by eexists.
  - rewrite !last_app. by destruct H3 as [-> | ->].
Qed.

Lemma crlf_text_interleave (gaps es : list str) (tail : str) :
  length gaps = length es → Forall vevent_text es →
  crlf_text (interleave gaps es tail) → Forall crlf_text es.
Proof.
  intros Hlen Hes. revert gaps Hlen.
  induction Hes as [|e es He _ IH]; intros [|g gaps] Hlen; try done. simpl.
  apply vevent_text_ends in He as [[x ->] Hlast].
  intros [_ H]%crlf_text_split; [|right; simpl; by intros [=]].
  apply crlf_text_split in H as [He Hrest]; [|left; rewrite Hlast; by intros [=]].
  constructor; [done|]. apply (IH gaps); [by injection Hlen | done].
Qed.

Lemma crlf_text_extract_events (t : str) :
  crlf_text t → Forall crlf_text (extract_events t).
Proof.
  intros Ht. destruct (extracted_layout t) as (gaps & tail & Hlen & Heq & Hall).
  rewrite Heq in Ht at 1. by apply crlf_text_interleave in Ht.
Qed.

Lemma not_crlf_text_lf (s : str) : ¬ crlf_text (LF :: s).
Proof. inversion 1; done. Qed.

(** X15: every event taken from a feed that [fetch_ics] returned has CR
    LF as its only line breaks; it starts with the begin marker and CR LF and
    ends with CR LF, the end marker and CR LF. *)
Theorem fetched_events_crlf (http_ics : str → str → option str)
    (liga_id ms_liga_id ics ev : str) :
  fetch_ics http_ics liga_id ms_liga_id = Ok ics →
  ev ∈ extract_events ics →
  breaks_are_crlf ev
  ∧ ∃ body, ev = py "BEGIN:VEVENT\r\n" ++ body ++ py "\r\nEND:VEVENT\r\n".
Proof.
  unfold fetch_ics. destruct (http_ics liga_id ms_liga_id) as [text|]; [|done].
  intros [= <-] Hev.
  assert (crlf_text ev) as Hcrlf.
  { pose proof (crlf_text_extract_events _ (crlf_text_normalize text)) as H.
    rewrite Forall_forall in H. by apply H. }
  split; [by apply crlf_text_breaks|].
  assert (vevent_text ev) as (nl1 & body & nl2 & nl3 & H1 & H2 & H3 & ->).
  { destruct (extracted_layout (normalize_crlf text)) as (_ & _ & _ & _ & H).
    rewrite Forall_forall in H. by apply H. }
  assert (nl1 = py "\r\n") as ->.
  { destruct H1 as [->|]; [|done]. exfalso.
    apply crlf_text_split in Hcrlf as [_ H]; [|by left].
    by apply not_crlf_text_lf in H. }
  assert (nl3 = py "\r\n") as ->.
  { destruct H3 as [->|]; [|done]. exfalso. rewrite !app_assoc in Hcrlf.
    apply crlf_text_split in Hcrlf as [_ H].
    - by apply not_crlf_text_lf in H.
    - left. rewrite last_app. by intros [=]. }
  destruct H2 as [->| ->]; [|by exists body].
  destruct (last body) as [x|] eqn:Hlast.
  - apply last_Some in Hlast as [body' ->].
    destruct (decide (x = CR)) as [->|Hx].
    + exists body'. by rewrite <- !app_assoc.
    + exfalso. rewrite (app_assoc _ (body' ++ [x])), (app_assoc (py "BEGIN:VEVENT")) in Hcrlf.
      apply crlf_text_split in Hcrlf as [_ H].
      * by apply not_crlf_text_lf in H.
      * left. rewrite !app_assoc, last_snoc. by intros [= ->].
  - apply last_None in Hlast as ->. exfalso.
    rewrite app_nil_l, (app_assoc (py "BEGIN:VEVENT")) in Hcrlf.
    apply crlf_text_split in Hcrlf as [_ H].
    + by apply not_crlf_text_lf in H.
    + by left.
Qed.

Lemma fetched_events_crlf_witness :
  breaks_are_crlf (py "BEGIN:VEVENT\r\nUID:1\r\nSUMMARY:x\r\nEND:VEVENT\r\n")
  ∧ ∃ body, py "BEGIN:VEVENT\r\nUID:1\r\nSUMMARY:x\r\nEND:VEVENT\r\n"
            = py "BEGIN:VEVENT\r\n" ++ body ++ py "\r\nEND:VEVENT\r\n".
Proof.
  refine (fetched_events_crlf demo_ics (py "1") (py "7") _ _ eq_refl _).
  vm_compute. apply list_elem_of_here.
Defined.

(** X16: the text that [main] writes has CR LF as its only line breaks,
    when the time stamp, the names and league ids of the targets and the team
    ids found in the pages hold no CR and no LF. *)
Theorem main_text_crlf (U : unicode) (hash : str → Z)
    (http_options : str → option (list (str * str))) (http_ics : str → str → option str)
    (now : str) (targets : list (str * str)) (text line : str) :
  main U hash http_options http_ics now targets = Ok (text, line) →
  plain now →
  (∀ team_name liga_id, (team_name, liga_id) ∈ targets → plain team_name ∧ plain liga_id) →
  (∀ team_name liga_id ms_id, (team_name, liga_id) ∈ targets →
     fetch_team_id U http_options team_name liga_id = Ok ms_id → plain ms_id) →
  breaks_are_crlf text.
Proof.
  unfold main. destruct (main_merged _ _ _ _ targets) as [out| |] eqn:E; try done.
  apply main_merged_rounds in E as (parts & Hparts & ->).
  intros [= <- _] Hnow Htargets Hids.
  apply crlf_text_breaks. unfold calendar_text, ensure_calendar_header.
  crlf_pieces; [by apply plain_crlf_text|].
  apply crlf_text_concat, Forall_forall. intros e He.
  apply (proj1 (elem_of_dedupe _ _)) in He.
  apply elem_of_concat in He as (a & part & Ha & He).
  destruct (Forall2_lookup_r _ _ _ _ _ Hparts Ha) as ([team_name liga_id] & Ht & Hround).
  apply list_elem_of_lookup_2 in Ht.
  destruct (Htargets _ _ Ht) as [Hname Hliga].
  unfold target_events in Hround.
  destruct (fetch_team_id U http_options team_name liga_id) as [ms| |] eqn:Ems; try done.
  pose proof (Hids _ _ _ Ht Ems) as Hms. unfold fetch_ics in Hround.
  destruct (http_ics liga_id ms) as [feed|]; [|done].
  pose proof (crlf_text_extract_events _ (crlf_text_normalize feed)) as Hevents.
  destruct (extract_events (normalize_crlf feed)) as [|ev events]; [done|].
  injection Hround as <-.
  apply (elem_of_map _ _ (ev :: events)) in He as (ev' & -> & Hev').
  rewrite Forall_forall in Hevents.
  apply crlf_text_transform; [| done | by apply Hevents].
  unfold uid_prefix. by crlf_pieces.
Qed.

Lemma main_text_crlf_witness :
  breaks_are_crlf (calendar_text (py "20260101T000000Z") demo_output).
Proof.
  apply (main_text_crlf PyLib.lib (λ _, 0%Z) demo_options demo_ics
           (py "20260101T000000Z") demo_targets _ (ok_line demo_output)).
  - vm_compute. reflexivity.
  - apply plain_test. vm_compute. reflexivity.
  - intros team_name liga_id Hin%list_elem_of_In.
    destruct Hin as [[= <- <-]|[[= <- <-]|[]]];
      split; apply plain_test; vm_compute; reflexivity.
  - intros team_name liga_id ms_id Hin%list_elem_of_In.
    destruct Hin as [[= <- <-]|[[= <- <-]|[]]]; intros Hms;
      vm_compute in Hms; injection Hms as <-; apply plain_test; vm_compute; reflexivity.
Defined.

(** ** [norm] on names that differ in letter case or in whitespace *)

Lemma ascii_upper_cases (c : N) : c < 256 ∨ ascii_upper c = c.
Proof.
  unfold ascii_upper. destruct ((ch "a" <=? c) && (c <=? ch "z")) eqn:E; [|by right].
  left. apply andb_true_iff in E as [_ E%N.leb_le].
  change (ch "z") with 122 in E. lia.
Qed.

Lemma ascii_upper_table (c : N) :
  PyLib.isspace (ascii_upper c) = PyLib.isspace c
  ∧ norm_char (ascii_upper c) = norm_char c
  ∧ (ascii_upper c = ch "&" → c = ch "&").
Proof.
  destruct (ascii_upper_cases c) as [Hc|Hc].
  - assert (forallb (λ c, Bool.eqb (PyLib.isspace (ascii_upper c)) (PyLib.isspace c)
                          && str_eqb (norm_char (ascii_upper c)) (norm_char c)
                          && (negb (ascii_upper c =? ch "&") || (c =? ch "&")))
              (map N.of_nat (seq 0 256)) = true) as Hall by (vm_compute; reflexivity).
    rewrite forallb_forall in Hall.
    apply latin1_enumerated, list_elem_of_In, Hall in Hc.
    apply andb_true_iff in Hc as [[H1 H2]%andb_true_iff H3]. split_and!.
    + by apply Bool.eqb_prop.
    + by apply str_eqb_eq.
    + intros E. rewrite E in H3. by apply N.eqb_eq in H3.
  - by rewrite Hc.
Qed.

Lemma flat_map_singleton (f : N → N) (s : str) : flat_map (λ c, [f c]) s = map f s.
Proof. induction s as [|c s IH]; [done|]. simpl. by rewrite IH. Qed.

Lemma flat_map_norm_char_upper (w : str) :
  flat_map norm_char (map ascii_upper w) = flat_map norm_char w.
Proof.
  induction w as [|c w IH]; [done|]. simpl.
  by rewrite IH, (proj1 (proj2 (ascii_upper_table c))).
Qed.

(** X17: [norm] does not tell the upper-case form of an ASCII letter
    from the letter: putting the letters a to z of a name in upper case leaves
    its normal form as it is, for names of code points below 256 without
    character reference. *)
Theorem norm_ascii_case (s : str) :
  Forall (λ c, c < 256) s → ch "&" ∉ s →
  norm PyLib.lib (map ascii_upper s) = norm PyLib.lib s.
Proof.
  intros _ Hs. rewrite (norm_no_amp s) by done. rewrite norm_no_amp.
  2:{ intros (c & Hc & Hin%list_elem_of_In)%list_elem_of_In%in_map_iff.
      apply (ascii_upper_table c) in Hc as ->. done. }
  rewrite <- flat_map_singleton.
  rewrite (strip_sub_ws_flat_map PyLib.lib (λ c, [ascii_upper c]) (λ _, True)); try done.
  - by rewrite flat_map_singleton, flat_map_norm_char_upper.
  - intros c c' _ ->%list_elem_of_singleton. apply ascii_upper_table.
  - by apply Forall_forall.
Qed.

Lemma norm_ascii_case_witness :
  norm PyLib.lib (map ascii_upper (py "TSV Gromb\xfchl 2")) = norm PyLib.lib (py "TSV Gromb\xfchl 2").
Proof.
  apply norm_ascii_case.
  - apply Forall_forall. intros c Hc%list_elem_of_In. vm_compute in Hc.
    intuition (subst; reflexivity).
  - intros Hc%list_elem_of_In. vm_compute in Hc. intuition discriminate.
Defined.

Section Padding.

Context (U : unicode).
Hypothesis space_is_space : isspace U (ch " ") = true.

Abbreviation spaces := (Forall (λ c, isspace U c = true)).

Lemma sub_ws_run (b : bool) (ws x : str) :
  spaces ws → ws ≠ [] →
  sub_ws U b (ws ++ x) = (if b then [] else [ch " "]) ++ sub_ws U true x.
Proof.
  intros Hws. revert b. induction Hws as [|c ws Hc Hws IH]; intros b Hne; [done|].
  simpl app. rewrite sub_ws_cons, Hc.
  destruct ws as [|d ws]; [by destruct b|].
  rewrite (IH true) by done. by destruct b.
Qed.

Lemma sub_ws_inner_run (b : bool) (a ws ws' x : str) :
  spaces ws → ws ≠ [] → spaces ws' → ws' ≠ [] →
  sub_ws U b (a ++ ws ++ x) = sub_ws U b (a ++ ws' ++ x).
Proof.
  intros Hws Hne Hws' Hne'. revert b. induction a as [|c a IH]; intros b.
  - simpl app. by rewrite !sub_ws_run.
  - simpl app. rewrite !sub_ws_cons. by rewrite !IH.
Qed.

Lemma rstrip_pad_right (x ws : str) : spaces ws → rstrip U (x ++ ws) = rstrip U x.
Proof.
  intros Hws. unfold rstrip. rewrite reverse_app, lstrip_app, lstrip_spaces; [done|].
  by apply Forall_reverse.
Qed.

Lemma sub_ws_rstrip_pad_left (ws x : str) :
  spaces ws → sub_ws U true (rstrip U (ws ++ x)) = sub_ws U true (rstrip U x).
Proof.
  induction 1 as [|c ws Hc _ IH]; [done|]. simpl app.
  rewrite rstrip_cons, Hc. destruct (rstrip U (ws ++ x)) as [|d r]; [done|].
  by rewrite sub_ws_cons, Hc.
Qed.

Lemma strip_sub_ws_pad (ws1 x ws2 : str) :
  spaces ws1 → spaces ws2 →
  strip U (sub_ws U false (ws1 ++ x ++ ws2)) = strip U (sub_ws U false x).
Proof using space_is_space.
  intros H1 H2. rewrite !strip_sub_ws by done.
  by rewrite app_assoc, rstrip_pad_right, sub_ws_rstrip_pad_left.
Qed.

End Padding.

Lemma isspace_no_amp (ws : str) : Forall (λ c, PyLib.isspace c = true) ws → ch "&" ∉ ws.
Proof. intros H Hamp. rewrite Forall_forall in H. by apply H in Hamp. Qed.

Lemma no_amp_app (a b : str) : ch "&" ∉ a → ch "&" ∉ b → ch "&" ∉ a ++ b.
Proof. intros Ha Hb [H|H]%elem_of_app; done. Qed.

(** X18: [norm] does not see whitespace at the ends of a name: a name
    with whitespace before and after it has the normal form of the name, for
    names of code points below 256 without character reference. *)
Theorem norm_padding (ws1 s ws2 : str) :
  Forall (λ c, c < 256) (ws1 ++ s ++ ws2) → ch "&" ∉ s →
  Forall (λ c, PyLib.isspace c = true) ws1 → Forall (λ c, PyLib.isspace c = true) ws2 →
  norm PyLib.lib (ws1 ++ s ++ ws2) = norm PyLib.lib s.
Proof.
  intros _ Hs H1 H2. rewrite (norm_no_amp s) by done. rewrite norm_no_amp.
  - by rewrite (strip_sub_ws_pad PyLib.lib).
  - auto using no_amp_app, isspace_no_amp.
Qed.

Lemma norm_padding_witness :
  norm PyLib.lib (py "\t " ++ py "TG Veitsh\xf6chheim" ++ py " \xa0\n") = norm PyLib.lib (py "TG Veitsh\xf6chheim").
Proof.
  apply norm_padding.
  - apply Forall_forall. intros c Hc%list_elem_of_In. vm_compute in Hc.
    intuition (subst; reflexivity).
  - intros Hc%list_elem_of_In. vm_compute in Hc. intuition discriminate.
  - apply Forall_forall. intros c Hc%list_elem_of_In. vm_compute in Hc.
    intuition (subst; reflexivity).
  - apply Forall_forall. intros c Hc%list_elem_of_In. vm_compute in Hc.
    intuition (subst; reflexivity).
Defined.

(** X19: [norm] takes every run of whitespace inside a name for one
    space: two names that differ in the whitespace between two words only have
    the same normal form, for names of code points below 256 without character
    reference. *)
Theorem norm_inner_whitespace (a ws ws' b : str) :
  Forall (λ c, c < 256) (a ++ ws ++ ws' ++ b) → ch "&" ∉ a → ch "&" ∉ b →
  Forall (λ c, PyLib.isspace c = true) ws → ws ≠ [] →
  Forall (λ c, PyLib.isspace c = true) ws' → ws' ≠ [] →
  norm PyLib.lib (a ++ ws ++ b) = norm PyLib.lib (a ++ ws' ++ b).
Proof.
  intros _ Ha Hb Hws Hne Hws' Hne'.
  rewrite !norm_no_amp by auto using no_amp_app, isspace_no_amp.
  by rewrite (sub_ws_inner_run PyLib.lib false a ws ws' b).
Qed.

Lemma norm_inner_whitespace_witness :
  norm PyLib.lib (py "TSV" ++ py " \t " ++ py "Gromb\xfchl") = norm PyLib.lib (py "TSV" ++ py " " ++ py "Gromb\xfchl").
Proof.
  apply norm_inner_whitespace.
  - apply Forall_forall. intros c Hc%list_elem_of_In. vm_compute in Hc.
    intuition (subst; reflexivity).
  - intros Hc%list_elem_of_In. vm_compute in Hc. intuition discriminate.
  - intros Hc%list_elem_of_In. vm_compute in Hc. intuition discriminate.
  - apply Forall_forall. intros c Hc%list_elem_of_In. vm_compute in Hc.
    intuition (subst; reflexivity).
  - done.
  - apply Forall_forall. intros c Hc%list_elem_of_In. vm_compute in Hc.
    intuition (subst; reflexivity).
  - done.
Defined.

(** ** [extract_events]: which texts have events, and where an event ends *)

Lemma opt_cr_lf_newline (nl z : str) : newline nl → opt_cr_lf (nl ++ z) = Some z.
Proof. by intros [-> | ->]. Qed.

Lemma literal_app (lit z : str) : literal lit (lit ++ z) = Some z.
Proof.
  unfold literal. rewrite (proj2 (startswith_spec lit (lit ++ z))) by by exists z.
  by rewrite drop_app_length.
Qed.

Lemma begin_vevent_app (nl z : str) :
  newline nl → begin_vevent (py "BEGIN:VEVENT" ++ nl ++ z) = Some z.
Proof. intros H. unfold begin_vevent. by rewrite literal_app, opt_cr_lf_newline. Qed.

Lemma end_vevent_app (nl2 nl3 z : str) :
  newline nl2 → newline nl3 → end_vevent (nl2 ++ py "END:VEVENT" ++ nl3 ++ z) = Some z.
Proof.
  intros H2 H3. unfold end_vevent.
  by rewrite opt_cr_lf_newline, literal_app, opt_cr_lf_newline.
Qed.

Lemma lazy_body_complete (body x z : str) :
  end_vevent x = Some z → ∃ m, lazy_body (body ++ x) = Some m.
Proof.
  intros Hx. induction body as [|c body [m IH]].
  - simpl app. rewrite lazy_body_cons, Hx. eauto.
  - simpl app. rewrite lazy_body_cons. destruct (end_vevent (c :: body ++ x)); [eauto|].
    rewrite IH. by eexists.
Qed.

Lemma match_vevent_complete (p z : str) :
  vevent_text p → ∃ n, match_vevent (p ++ z) = Some n.
Proof.
  intros (nl1 & body & nl2 & nl3 & H1 & H2 & H3 & ->).
  unfold match_vevent. rewrite <- !app_assoc, begin_vevent_app by done.
  destruct (lazy_body_complete body _ _ (end_vevent_app nl2 nl3 z H2 H3)) as [m Hm].
  rewrite Hm. by eexists.
Qed.

Lemma findall_vevent_complete (pre p post : str) :
  vevent_text p → findall_vevent 0 (pre ++ p ++ post) ≠ [].
Proof.
  intros Hp. destruct (match_vevent_complete p post Hp) as [n Hn].
  induction pre as [|c pre IH].
  - simpl app. destruct (p ++ post) as [|d s] eqn:E.
    + apply vevent_text_nonempty in Hp. by destruct p.
    + by rewrite findall_vevent_cons, Hn.
  - simpl app. rewrite findall_vevent_cons.
    by destruct (match_vevent (c :: pre ++ p ++ post)).
Qed.

(** X20: a text has events exactly when some part of it is the begin
    marker, a line terminator, a body, a line terminator, the end marker and a
    line terminator. *)
Theorem extract_events_nonempty_iff (ics_text : str) :
  extract_events ics_text ≠ [] ↔ ∃ p, vevent_text p ∧ substring p ics_text.
Proof.
  split.
  - intros Hne. destruct (extracted_layout ics_text) as (gaps & tail & Hlen & Ht & Hall).
    destruct (extract_events ics_text) as [|ev es]; [done|].
    destruct gaps as [|g gaps]; [done|].
    apply Forall_cons in Hall as [Hev _]. exists ev. split; [done|].
    by exists g, (interleave gaps es tail).
  - intros (p & Hp & pre & post & ->). by apply findall_vevent_complete.
Qed.

Lemma lazy_body_minimal (r : str) (m : nat) :
  lazy_body r = Some m →
  ∃ body nl2 nl3 rest,
    newline nl2 ∧ newline nl3
    ∧ r = body ++ nl2 ++ py "END:VEVENT" ++ nl3 ++ rest
    ∧ m = length (body ++ nl2 ++ py "END:VEVENT" ++ nl3)
    ∧ ∀ i, (i < length body)%nat → end_vevent (drop i r) = None.
Proof.
  revert m. induction r as [|c r IH]; intros m; rewrite lazy_body_cons.
  - destruct (end_vevent []) as [rest|] eqn:E; [|done].
    apply end_vevent_Some in E as (nl2 & nl3 & _ & _ & E). by destruct nl2.
  - destruct (end_vevent (c :: r)) as [rest|] eqn:E.
    + intros [= <-]. apply end_vevent_Some in E as (nl2 & nl3 & H2 & H3 & Hs).
      exists [], nl2, nl3, rest. split_and!; [done | done | done | | simpl; lia].
      change (S (length r)) with (length (c :: r)).
      rewrite Hs, !length_app. simpl. lia.
    + destruct (lazy_body r) as [m'|] eqn:E'; [|done]. intros [= <-].
      destruct (IH m' eq_refl) as (body & nl2 & nl3 & rest & H2 & H3 & Hr & -> & Hmin).
      exists (c :: body), nl2, nl3, rest. split_and!; [done | done | by rewrite Hr | done |].
      intros [|i] Hi; [done|]. apply Hmin. simpl in Hi. lia.
Qed.

Lemma newline_app_inj (n1 n2 x y : str) :
  newline n1 → newline n2 → n1 ++ x = n2 ++ y → n1 = n2 ∧ x = y.
Proof. intros [-> | ->] [-> | ->] H; by simplify_eq. Qed.

Lemma newline_length (nl : str) : newline nl → (1 ≤ length nl ≤ 2)%nat.
Proof. intros [-> | ->]; simpl; lia. Qed.

(** Two matches of the end marker with its line terminators overlap only
    when they end at the same place. *)
Lemma end_marker_overlap (w nl2' nl3' q nl2 nl3 : str) :
  newline nl2' → newline nl3' → newline nl2 → newline nl3 →
  w ++ nl2' ++ py "END:VEVENT" ++ nl3' ++ q = nl2 ++ py "END:VEVENT" ++ nl3 →
  q = [].
Proof.
  intros H2' H3' H2 H3 H. destruct q as [|y q]; [done|]. exfalso.
  assert (length w ≤ 1)%nat as Hw.
  { apply (f_equal length) in H. rewrite !length_app in H.
    apply newline_length in H2', H3', H2, H3. simpl in H. lia. }
  destruct w as [|x [|x' w]]; [| |simpl in Hw; lia];
    destruct H2' as [-> | ->], H3' as [-> | ->], H2 as [-> | ->], H3 as [-> | ->];
    vm_compute in H; simplify_eq.
Qed.

Lemma match_vevent_minimal (s : str) (n : nat) :
  match_vevent s = Some n →
  ∃ nl1 body nl2 nl3 rest,
    newline nl1 ∧ newline nl2 ∧ newline nl3
    ∧ s = (py "BEGIN:VEVENT" ++ nl1 ++ body ++ nl2 ++ py "END:VEVENT" ++ nl3) ++ rest
    ∧ n = length (py "BEGIN:VEVENT" ++ nl1 ++ body ++ nl2 ++ py "END:VEVENT" ++ nl3)
    ∧ ∀ i, (i < length body)%nat →
        end_vevent (drop i (body ++ nl2 ++ py "END:VEVENT" ++ nl3 ++ rest)) = None.
Proof.
  unfold match_vevent. destruct (begin_vevent s) as [r|] eqn:E1; [|done].
  apply begin_vevent_Some in E1 as (nl1 & H1 & ->).
  destruct (lazy_body r) as [m|] eqn:E2; [|done]. intros [= <-].
  apply lazy_body_minimal in E2 as (body & nl2 & nl3 & rest & H2 & H3 & -> & -> & Hmin).
  exists nl1, body, nl2, nl3, rest. split_and!; try done.
  - by rewrite <- !app_assoc.
  - rewrite !length_app. change (length (py "BEGIN:VEVENT")) with 12%nat. lia.
Qed.

Lemma match_vevent_shortest (s : str) (n : nat) (p q : str) :
  match_vevent s = Some n → take n s = p ++ q → vevent_text p → q = [].
Proof.
  intros (nl1 & body & nl2 & nl3 & rest & H1 & H2 & H3 & -> & -> & Hmin)%match_vevent_minimal.
  rewrite take_app_length.
  intros Htake (nl1' & body' & nl2' & nl3' & H1' & H2' & H3' & ->).
  assert (body ++ nl2 ++ py "END:VEVENT" ++ nl3
          = body' ++ nl2' ++ py "END:VEVENT" ++ nl3' ++ q) as Heq.
  { rewrite <- !app_assoc in Htake. apply app_inv_head in Htake.
    by apply newline_app_inj in Htake as [_ Htake]. }
  apply app_eq_inv in Heq as [(k & Hk & Hq)|(k & Hk & Hq)].
  - destruct k as [|x k].
    + rewrite app_nil_l in Hq. symmetry in Hq.
      by apply (end_marker_overlap [] nl2' nl3' q nl2 nl3).
    + exfalso. specialize (Hmin (length body')).
      rewrite Hk, <- app_assoc, drop_app_length in Hmin.
      replace ((x :: k) ++ nl2 ++ py "END:VEVENT" ++ nl3 ++ rest)
        with (nl2' ++ py "END:VEVENT" ++ nl3' ++ q ++ rest) in Hmin.
      2:{ apply (f_equal (λ l, l ++ rest)) in Hq. by rewrite <- !app_assoc in Hq. }
      rewrite end_vevent_app in Hmin by done.
      assert (length body' < length (body' ++ x :: k))%nat as Hlt
        by (rewrite length_app; simpl; lia).
      by specialize (Hmin Hlt).
  - symmetry in Hq. by apply (end_marker_overlap k nl2' nl3' q nl2 nl3).
Qed.

Lemma findall_vevent_Forall (P : str → Prop) (t : str) :
  (∀ s n, match_vevent s = Some n → P (take n s)) → Forall P (findall_vevent 0 t).
Proof.
  intros HP. remember (length t) as k eqn:Hk. revert t Hk.
  induction k as [k IH] using lt_wf_ind. intros t ->.
  destruct t as [|c s]; [constructor|].
  rewrite findall_vevent_cons.
  destruct (match_vevent (c :: s)) as [n|] eqn:E.
  - constructor; [by apply HP|].
    apply (IH (length (drop n (c :: s)))); [|done].
    apply match_vevent_Some in E as (ev & rest & -> & -> & Hev%vevent_text_nonempty).
    rewrite drop_app_length, length_app. destruct ev; [done|]. simpl. lia.
  - apply (IH (length s)); [simpl; lia | done].
Qed.

(** X21: an event ends at the first end marker line after its begin
    marker: no shorter text that starts where the event starts is the begin
    marker, a line terminator, a body, a line terminator, the end marker and a
    line terminator. *)
Theorem extract_events_shortest (ics_text ev p q : str) :
  ev ∈ extract_events ics_text → ev = p ++ q → vevent_text p → p = ev.
Proof.
  intros Hev. revert p q.
  pose proof (findall_vevent_Forall
                (λ ev, ∀ p q, ev = p ++ q → vevent_text p → p = ev) ics_text) as H.
  rewrite Forall_forall in H. apply H; [|done].
  intros s n Hn p q Htake Hp.
  rewrite Htake, (match_vevent_shortest s n p q Hn Htake Hp). by rewrite app_nil_r.
Qed.

Lemma extract_events_shortest_witness :
  py "BEGIN:VEVENT\nUID:1\nEND:VEVENT\n" = py "BEGIN:VEVENT\nUID:1\nEND:VEVENT\n".
Proof.
  apply (extract_events_shortest
           (py "BEGIN:VCALENDAR\nBEGIN:VEVENT\nUID:1\nEND:VEVENT\nEND:VEVENT\n") _ _ []).
  - vm_compute. apply list_elem_of_here.
  - by rewrite app_nil_r.
  - exists (py "\n"), (py "UID:1"), (py "\n"), (py "\n").
    split_and!; [by left | by left | by left | vm_compute; reflexivity].
Defined.

Lemma findall_vevent_first (t ev : str) (es : list str) :
  findall_vevent 0 t = ev :: es →
  ∃ g rest,
    t = g ++ ev ++ rest
    ∧ findall_vevent 0 rest = es
    ∧ ∀ a b p z, g = a ++ b → b ≠ [] → vevent_text p → b ++ ev ++ rest ≠ p ++ z.
Proof.
  induction t as [|c s IH]; [done|]. rewrite findall_vevent_cons.
  destruct (match_vevent (c :: s)) as [n|] eqn:E.
  - intros [= <- <-]. exists [], (drop n (c :: s)). split_and!.
    + by rewrite app_nil_l, take_drop.
    + done.
    + intros a b p z Hg Hb. symmetry in Hg. by apply app_eq_nil in Hg as [_ ->].
  - intros (g & rest & -> & Hes & Hleft)%IH. exists (c :: g), rest. split_and!; [done..|].
    intros [|c' a] b p z Hg Hb Hp Heq.
    + simpl in Hg. subst b.
      destruct (match_vevent_complete p z Hp) as [n Hn].
      rewrite <- Heq in Hn. simpl in Hn. by rewrite E in Hn.
    + injection Hg as <- ->. by apply (Hleft a b p z).
Qed.

(** X22: the first event of a text is the leftmost one: before the place
    where it starts, no part of the text is the begin marker, a line
    terminator, a body, a line terminator, the end marker and a line
    terminator; the other events are the events of the text after it. *)
Theorem extract_events_first (ics_text ev : str) (es : list str) :
  extract_events ics_text = ev :: es →
  ∃ g rest,
    ics_text = g ++ ev ++ rest
    ∧ extract_events rest = es
    ∧ ∀ a b p z, g = a ++ b → b ≠ [] → vevent_text p → b ++ ev ++ rest ≠ p ++ z.
Proof. apply findall_vevent_first. Qed.

Lemma extract_events_first_witness :
  ∃ g rest,
    py "BEGIN:VEVENT\nBEGIN:VEVENT\nUID:1\nEND:VEVENT\nBEGIN:VEVENT\nUID:2\nEND:VEVENT\n"
    = g ++ py "BEGIN:VEVENT\nBEGIN:VEVENT\nUID:1\nEND:VEVENT\n" ++ rest
    ∧ extract_events rest = [py "BEGIN:VEVENT\nUID:2\nEND:VEVENT\n"]
    ∧ ∀ a b p z, g = a ++ b → b ≠ [] → vevent_text p →
        b ++ py "BEGIN:VEVENT\nBEGIN:VEVENT\nUID:1\nEND:VEVENT\n" ++ rest ≠ p ++ z.
Proof.
  apply extract_events_first. vm_compute. reflexivity.
Defined.
